(** * keywrap: keymap compiler, input reader and event loop

    A shallow embedding of [main.go] and of its second variant (the file
    that defines [mainWithReturn]), used to check the statements made about
    them in the repository's specification.

    Go strings are byte sequences: they are modelled by [string] (a list of
    8-bit [ascii] characters).  The Go maps built by [formatKeymap] are
    [gmap string Action].  A Go [panic] is an explicit error value. *)

From Stdlib Require Import ZArith NArith Ascii String DecimalString List Lia.
From stdpp Require Import base option gmap strings list fin_maps.
Import ListNotations.

Local Open Scope string_scope.
Local Open Scope Z_scope.
Local Open Scope list_scope.

(** ** Panics and fallible computations *)

Inductive panic : Type :=
| PanicMsg (msg : string)               (* panic("...") on a string *)
| PanicError (err : string)             (* panic(err) on an error value *)
| SliceBoundsOutOfRange (lo hi : Z)     (* runtime error: slice bounds out of range [lo:hi] *)
| IndexOutOfRange (i : nat)             (* runtime error: index out of range *)
| NilPointerDereference.                (* runtime error: nil pointer dereference *)

Inductive result (A : Type) : Type :=
| Ok (a : A)
| Panics (p : panic).
Arguments Ok {A} a.
Arguments Panics {A} p.

(** [result] is an error monad; [x ← r; k] is stdpp's notation for its bind:
    a panic of [r] is the panic of the whole computation. *)
#[global] Instance result_bind : MBind result := λ A B f r,
  match r with
  | Ok a => f a
  | Panics p => Panics p
  end.

(** ** The Go string primitives used by the program

    Rocq string literals have no escape sequences, so the control bytes the
    source writes as [\x1b], [\n] and [\t] are built from their codes. *)

Module GoString.

Definition ESC : ascii := ascii_of_nat 27.
Definition NL : string := String (ascii_of_nat 10) EmptyString.
Definition TAB : string := String (ascii_of_nat 9) EmptyString.

(** [len(s)] *)
Definition len (s : string) : Z := Z.of_nat (String.length s).

(** [strings.HasPrefix(s, p)] *)
Definition HasPrefix (s p : string) : bool := String.prefix p s.

(** [s[lo:hi]]: panics unless [0 <= lo <= hi <= len(s)]. *)
Definition slice (s : string) (lo hi : Z) : result string :=
  if (0 <=? lo) && (lo <=? hi) && (hi <=? len s)
  then Ok (String.substring (Z.to_nat lo) (Z.to_nat (hi - lo)) s)
  else Panics (SliceBoundsOutOfRange lo hi).

(** [s[lo:]] for a constant [lo] known to be within the string. *)
Definition drop (lo : nat) (s : string) : string :=
  String.substring lo (String.length s - lo) s.

(** [s[i]] as a byte value; [None] when [i] is out of range. *)
Definition index (s : string) (i : nat) : option Z :=
  match String.get i s with
  | Some c => Some (Z.of_N (N_of_ascii c))
  | None => None
  end.

(** The [%d] verb of [fmt.Sprintf] on a byte. *)
Definition decimal (n : Z) : string :=
  NilZero.string_of_uint (N.to_uint (Z.to_N n)).

(** Arithmetic on the type [byte] wraps around modulo 256. *)
Definition byte_wrap (n : Z) : Z := n mod 256.

(** [string(b)] for a byte-typed [b]: the UTF-8 encoding of the code point
    [b]; one byte below 128, two bytes from 128 on. *)
Definition of_byte_rune (b : Z) : string :=
  if b <? 128
  then String (ascii_of_N (Z.to_N b)) EmptyString
  else String (ascii_of_N (Z.to_N (Z.lor 192 (Z.shiftr b 6))))
         (String (ascii_of_N (Z.to_N (Z.lor 128 (Z.land b 63)))) EmptyString).

(** [strings.ReplaceAll(s, old, new)] for a non-empty [old]: the
    non-overlapping occurrences of [old], from the left, become [new].
    [skip] counts the bytes of a matched occurrence still to be dropped. *)
Fixpoint replace_from (skip : nat) (old new s : string) : string :=
  match s with
  | EmptyString => EmptyString
  | String c rest =>
      match skip with
      | S n => replace_from n old new rest
      | O =>
          if String.prefix old s
          then new +:+ replace_from (String.length old - 1) old new rest
          else String c (replace_from O old new rest)
      end
  end.

Definition ReplaceAll (s old new : string) : string := replace_from O old new s.

(** [strings.SplitN(s, ":", 2)]: the string cut at its first colon, or the
    string alone when it has none. *)
Fixpoint cut (s : string) : option (string * string) :=
  match s with
  | EmptyString => None
  | String c rest =>
      if Ascii.eqb c ":" then Some (EmptyString, rest)
      else match cut rest with
           | Some (before, after) => Some (String c before, after)
           | None => None
           end
  end.

Definition SplitN2 (s : string) : list string :=
  match cut s with
  | Some (before, after) => [before; after]
  | None => [s]
  end.

(** Whether the byte [c] occurs in [s]. *)
Fixpoint hasByte (c : ascii) (s : string) : bool :=
  match s with
  | EmptyString => false
  | String c' rest => Ascii.eqb c' c || hasByte c rest
  end.

(** The double quote, which a Rocq string literal cannot hold. *)
Definition DQ : string := String (ascii_of_nat 34) EmptyString.

End GoString.

(** ** Actions (identical in both variants) *)

(** [type ActionType string] *)
Definition ActionType : Type := string.

Definition ActionTypeExit : ActionType := "exit".
Definition ActionTypeBecome : ActionType := "become".
Definition ActionTypeExecute : ActionType := "execute".

Record Action : Type := mkAction { Type_ : ActionType; Arg : string }.

(** The zero value of [Action], what [var action Action] declares. *)
Definition zeroAction : Action := {| Type_ := ""; Arg := "" |}.

(** The iteration order of [for k, v := range keymap]: the entries of the Go
    map, each key once, in the order in which the loop visits them.  Go
    leaves that order unspecified, so it is an input of the model. *)
Definition bindings : Type := list (string * string).

(** ** What the process does to the outside world *)

Inductive signal : Type := SIGTERM | SIGKILL.

Inductive Effect : Type :=
| Log (line : string)                 (* log.Printf / log.Println *)
| Signal (sig : signal)               (* child.Process.Signal / child.Process.Kill *)
| TimerFired                          (* <-time.After(2 * time.Second) *)
| InheritSize                         (* pty.InheritSize(tty, ptmx) *)
| RunCommand (argv : list string)     (* exec.Command(...).Run() *)
| RestoreTerminal                     (* term.Restore(tty.Fd(), oldState) *)
| ClosePtmx                           (* ptmx.Close() *)
| CloseStdinFile.                     (* stdinFile.Close() *)

(** The ways in which the process can end once the event loop is running.
    Deferred calls run when the function that deferred them returns and when
    a panic unwinds its goroutine; they do not run when another goroutine
    panics, when [os.Exit] is called ([log.Fatal] calls it), or when
    [syscall.Exec] replaces the process image. *)
Inductive Termination : Type :=
| Returns (code : Z)                  (* the function running the loop returns *)
| MainPanic (p : panic)               (* a panic in the main goroutine *)
| GoroutinePanic (p : panic)          (* a panic in a goroutine started with [go] *)
| OsExit (code : Z)                   (* os.Exit(code) *)
| ExecReplaced (argv : list string).  (* syscall.Exec succeeded *)

Definition runsDeferred (t : Termination) : bool :=
  match t with
  | Returns _ | MainPanic _ => true
  | GoroutinePanic _ | OsExit _ | ExecReplaced _ => false
  end.

(** The variable [childExitChan]: the channel made at startup, or [nil] once
    the loop or [stopChild] has received from it. *)
Inductive chanref : Type := chan_open | chan_nil.

(** What the environment answers to the calls of the event loop. *)
Record Oracle : Type := {
  sigtermErr : option string;      (* child.Process.Signal(syscall.SIGTERM) *)
  graceTimers : nat;               (* timers firing before the child's exit arrives *)
  killErr : nat -> option string;  (* the n-th child.Process.Kill() *)
  resizeErr : option string;       (* pty.InheritSize *)
  lookPath : string + string;      (* exec.LookPath: the binary, or an error *)
  execErr : option string;         (* syscall.Exec returns only to report an error *)
  runErr : option string           (* cmd.Run() *)
}.

(** ** The input reader goroutine (the same text in both variants) *)

Inductive ReaderEffect : Type :=
| LogKey (received : string) (resolved : Action)  (* log.Printf("%q %v %s\n", ...) *)
| SendAction (a : Action)                          (* actionChan <- a *)
| WritePty (bytes : string).                       (* ptmx.Write(received) *)

(** One iteration of the reader's [for], after a successful [tty.Read]. *)
Definition readerIteration (isDebug : bool) (keymap : gmap string Action)
    (childExitChan : chanref) (received : string) : ReaderEffect :=
  if isDebug then
    LogKey received (default zeroAction (keymap !! received))
  else
    match keymap !! received with
    | Some action => SendAction action
    | None =>
        match childExitChan with
        | chan_nil => SendAction {| Type_ := ActionTypeExit; Arg := "" |}
        | chan_open => WritePty received
        end
    end.

(** The actions an iteration puts on [actionChan] and the byte strings it
    writes to the PTY master.  [actionChan] has ten slots: a send waits
    while they are all taken, and is never dropped. *)
Definition enqueued (e : ReaderEffect) : list Action :=
  match e with SendAction a => [a] | _ => [] end.

Definition forwarded (e : ReaderEffect) : list string :=
  match e with WritePty bytes => [bytes] | _ => [] end.

(** One turn of the reader: the outcome of [tty.Read], the value of
    [childExitChan] at that moment, and whether [ptmx.Write] fails. *)
Record Turn : Type := {
  readResult : option string;      (* [None]: tty.Read returned an error *)
  exitChanNow : chanref;
  writeFails : bool
}.

(** The reader's loop: it ends at the first failed read or failed write. *)
Fixpoint reader (isDebug : bool) (keymap : gmap string Action)
    (turns : list Turn) : list ReaderEffect :=
  match turns with
  | [] => []
  | t :: rest =>
      match readResult t with
      | None => []
      | Some received =>
          let e := readerIteration isDebug keymap (exitChanNow t) received in
          match e with
          | WritePty _ => if writeFails t then [e] else e :: reader isDebug keymap rest
          | _ => e :: reader isDebug keymap rest
          end
      end
  end.

(** ** [stopChild] (the same text in both variants) *)

Definition logErr (prefix : string) (err : option string) : list Effect :=
  match err with
  | Some e => [Log (prefix +:+ e)]
  | None => []
  end.

(** The [for]/[select] of [stopChild]: [n] timers fire, each followed by a
    kill, before the receive from [childExitChan] succeeds. *)
Fixpoint graceLoop (o : Oracle) (attempt n : nat) : list Effect :=
  match n with
  | O => []
  | S n' =>
      [TimerFired; Log "Child process did not exit gracefully, sending SIGKILL";
       Signal SIGKILL]
      ++ logErr "Error killing child process: " (killErr o attempt)
      ++ graceLoop o (S attempt) n'
  end.

Definition stopChild (o : Oracle) (childExitChan : chanref) : chanref * list Effect :=
  match childExitChan with
  | chan_nil => (chan_nil, [])
  | chan_open =>
      (chan_nil,
       Signal SIGTERM :: logErr "Error sending SIGTERM to child: " (sigtermErr o)
       ++ graceLoop o O (graceTimers o))
  end.

(** The outcome of one iteration of the event loop. *)
Inductive Next : Type :=
| Continue (childExitChan : chanref)
| Terminate (t : Termination).

(** The case of the loop's [select] that fires. *)
Inductive SelectCase : Type :=
| RecvChildExit (err : option string)   (* err := <-childExitChan *)
| RecvWinch                             (* <-sigWinchChan *)
| RecvAction (action : Action).         (* action := <-actionChan *)

(** ** The output goroutine (the same text in both variants)

    Each turn is the outcome of [ptmx.Read]; the chunk read is written to
    standard output, and the result of that write is not looked at. *)
Fixpoint copyOutput (reads : list (option string)) : list string :=
  match reads with
  | [] => []
  | None :: _ => []
  | Some chunk :: rest => chunk :: copyOutput rest
  end.

(** ** main.go *)

Module MainGo.

(** The first half of the body of the loop of [formatKeymap]: the
    [if]/[else if] chain on [v]. *)
Definition parseAction (v : string) : result Action :=
  if String.eqb v "exit" then
    Ok {| Type_ := ActionTypeExit; Arg := "" |}
  else if GoString.HasPrefix v "become(" then
    arg ← GoString.slice v 7 (GoString.len v - 1);
    Ok {| Type_ := ActionTypeBecome; Arg := arg |}
  else if GoString.HasPrefix v "execute(" then
    arg ← GoString.slice v 8 (GoString.len v - 1);
    Ok {| Type_ := ActionTypeExecute; Arg := arg |}
  else Ok zeroAction.

(** The second half: the [switch] on [k]. *)
Definition registerKey (k : string) (action : Action)
    (m : gmap string Action) : result (gmap string Action) :=
  if GoString.len k =? 1 then
    Ok (<[k := action]> m)
  else if GoString.HasPrefix k "ctrl-" && (GoString.len (GoString.drop 5 k) =? 1) then
    match GoString.index k 5 with
    | Some code =>
        let m1 := <[String GoString.ESC ("[" +:+ GoString.decimal code +:+ ";5u") := action]> m in
        if (97 <=? code) && (code <=? 122)
        then Ok (<[GoString.of_byte_rune (GoString.byte_wrap (code - 97 + 1)) := action]> m1)
        else Ok m1
    | None => Panics (IndexOutOfRange 5)
    end
  else if String.eqb k "enter" then
    Ok (<[GoString.NL := action]> m)
  else if String.eqb k "tab" then
    Ok (<[GoString.TAB := action]> m)
  else Panics (PanicMsg ("unknown key: " +:+ k)).

Fixpoint formatKeymap_from (m : gmap string Action) (keymap : bindings)
    : result (gmap string Action) :=
  match keymap with
  | [] => Ok m
  | (k, v) :: rest =>
      action ← parseAction v;
      m' ← registerKey k action m;
      formatKeymap_from m' rest
  end.

Definition formatKeymap (keymap : bindings) : result (gmap string Action) :=
  formatKeymap_from ∅ keymap.

(** The reader goroutine: it compiles the keymap first, and a panic of
    [formatKeymap] is a panic of that goroutine. *)
Definition readerGoroutine (isDebug : bool) (flagKeymap : bindings)
    (turns : list Turn) : list ReaderEffect + Termination :=
  match formatKeymap flagKeymap with
  | Ok keymap => inl (reader isDebug keymap turns)
  | Panics p => inr (GoroutinePanic p)
  end.

(** [execSyscall(cmd, args...)]: it returns to its caller on no path. *)
Definition execSyscall (o : Oracle) (args : list string) : Termination :=
  match lookPath o with
  | inr lookErr => MainPanic (PanicError lookErr)
  | inl binary =>
      match execErr o with
      | Some e => MainPanic (PanicError e)
      | None => ExecReplaced (binary :: args)
      end
  end.

(** [stdinFile.Name()]: [stdinFile] is [nil] when standard input is a
    terminal, and the method reads a field through the pointer. *)
Definition stdinFileName (stdinFile : option string) : result string :=
  match stdinFile with
  | Some name => Ok name
  | None => Panics NilPointerDereference
  end.

(** One iteration of the event loop of [main].  [None]: the case cannot
    fire (a receive from a [nil] channel blocks for ever). *)
Definition loopIteration (hold : bool) (stdinFile : option string) (o : Oracle)
    (childExitChan : chanref) (ev : SelectCase) : option (list Effect * Next) :=
  match ev with
  | RecvChildExit err =>
      match childExitChan with
      | chan_nil => None
      | chan_open =>
          let l := logErr "Command finished with error: " err in
          if negb hold
          then Some (l, Terminate (Returns 0))
          else Some (l ++ [Log "Child process exited, but --hold option is set, waiting for input..."],
                     Continue chan_nil)
      end
  | RecvWinch =>
      Some ([InheritSize] ++ logErr "Error resizing pty: " (resizeErr o),
            Continue childExitChan)
  | RecvAction action =>
      if String.eqb (Type_ action) ActionTypeExit then
        let '(c, l) := stopChild o childExitChan in
        Some (l, Terminate (Returns 0))
      else if String.eqb (Type_ action) ActionTypeBecome then
        let '(c, l) := stopChild o childExitChan in
        match stdinFileName stdinFile with
        | Panics p => Some (l, Terminate (MainPanic p))
        | Ok name =>
            let arg := GoString.ReplaceAll (Arg action) "__stdin_file__" name in
            Some (l, Terminate (execSyscall o ["-c"; arg]))
        end
      else if String.eqb (Type_ action) ActionTypeExecute then
        match stdinFileName stdinFile with
        | Panics p => Some ([], Terminate (MainPanic p))
        | Ok name =>
            let arg := GoString.ReplaceAll (Arg action) "__stdin_file__" name in
            Some (RunCommand ["bash"; "-c"; arg] :: logErr "" (runErr o),
                  Continue childExitChan)
        end
      else Some ([], Continue childExitChan)
  end.

(** The calls [main] has deferred when the loop runs, in the order in
    which they run: [term.Restore], [ptmx.Close], and [stdinFile.Close]
    when standard input was collected. *)
Definition deferred (stdinFile : option string) : list Effect :=
  [RestoreTerminal; ClosePtmx] ++
  match stdinFile with Some _ => [CloseStdinFile] | None => [] end.

Definition atExit (stdinFile : option string) (t : Termination) : list Effect :=
  if runsDeferred t then deferred stdinFile else [].

(** The exit status of the process; [None] when the process image was
    replaced, the status then being that of the new program.  [main]
    returning gives 0, an unrecovered panic 2. *)
Definition exitStatus (t : Termination) : option Z :=
  match t with
  | Returns _ => Some 0
  | MainPanic _ | GoroutinePanic _ => Some 2
  | OsExit code => Some code
  | ExecReplaced _ => None
  end.

(** [ParsedFlag] and [parseFlag].  [strings.TrimSpace] is a function of the
    Go library; the model takes it as a parameter. *)
Record ParsedFlag : Type := {
  Cmd : list string;
  Keymap : gmap string string;
  Hold : bool;
  Input : string
}.

Section Flags.
Variable TrimSpace : string -> string.

(** The [for len(args) > 0] loop; [printHelp] is [log.Fatal], which ends
    the process with status 1. *)
Fixpoint parseArgs (args : list string) (parsed : ParsedFlag)
    : ParsedFlag + Termination :=
  match args with
  | [] => inl parsed
  | a :: rest =>
      if String.eqb a "--" then
        inl {| Cmd := rest; Keymap := Keymap parsed;
               Hold := Hold parsed; Input := Input parsed |}
      else if String.eqb a "--bind" then
        match rest with
        | [] => inr (MainPanic (IndexOutOfRange 1))
        | kv :: rest' =>
            match GoString.SplitN2 kv with
            | [k; v] =>
                parseArgs rest'
                  {| Cmd := Cmd parsed;
                     Keymap := <[k := TrimSpace v]> (Keymap parsed);
                     Hold := Hold parsed; Input := Input parsed |}
            | _ => inr (OsExit 1)
            end
        end
      else if String.eqb a "--hold" || String.eqb a "-h" then
        parseArgs rest
          {| Cmd := Cmd parsed; Keymap := Keymap parsed;
             Hold := true; Input := Input parsed |}
      else if String.eqb a "--input" then
        match rest with
        | [] => inr (MainPanic (IndexOutOfRange 1))
        | text :: rest' =>
            parseArgs rest'
              {| Cmd := Cmd parsed; Keymap := Keymap parsed;
                 Hold := Hold parsed; Input := text |}
        end
      else
        inl {| Cmd := args; Keymap := Keymap parsed;
               Hold := Hold parsed; Input := Input parsed |}
  end.

(** [parseFlag], on [os.Args[1:]]. *)
Definition parseFlag (args : list string) : ParsedFlag + Termination :=
  match parseArgs args {| Cmd := []; Keymap := ∅; Hold := false; Input := "" |} with
  | inl parsed =>
      if (length (Cmd parsed) =? 0)%nat then inr (OsExit 1) else inl parsed
  | inr t => inr t
  end.

End Flags.

(** The command [main] hands to [startPty]: the user's command, wrapped in
    a shell that redirects the collected standard input when there is one. *)
Definition childCmd (stdinFile : option string) (cmd : list string) : list string :=
  match stdinFile with
  | Some name =>
      ["bash"; "-c";
       GoString.DQ +:+ "$@" +:+ GoString.DQ +:+ " <" +:+ GoString.DQ +:+ "$0"
       +:+ GoString.DQ +:+ "; rm " +:+ GoString.DQ +:+ "$0" +:+ GoString.DQ;
       name] ++ cmd
  | None => cmd
  end.

(** The program and arguments of [exec.Command(cmd[0], cmd[1:]...)] in
    [startPty].  On an empty command the compiled program fails the bounds
    check of [cmd[1:]] first. *)
Definition startPtyCommand (cmd : list string) : result (string * list string) :=
  match cmd with
  | [] => Panics (SliceBoundsOutOfRange 1 0)
  | name :: args => Ok (name, args)
  end.

(** The event loop: the iterations follow one another until one of them
    terminates the process.  Each event comes with the answers of the
    environment during its iteration.  [None]: the list asks for a case
    that cannot fire. *)
Fixpoint eventLoop (hold : bool) (stdinFile : option string)
    (events : list (Oracle * SelectCase)) (childExitChan : chanref)
    : option (list Effect * Next) :=
  match events with
  | [] => Some ([], Continue childExitChan)
  | (o, ev) :: rest =>
      match loopIteration hold stdinFile o childExitChan ev with
      | None => None
      | Some (l, Terminate t) => Some (l, Terminate t)
      | Some (l, Continue c) =>
          match eventLoop hold stdinFile rest c with
          | Some (l', n) => Some (l ++ l', n)
          | None => None
          end
      end
  end.

End MainGo.

(** ** The second variant ([mainWithReturn]) *)

Module Part000.

Definition parseAction (v : string) : result Action :=
  if String.eqb v "exit" then
    Ok {| Type_ := ActionTypeExit; Arg := "" |}
  else if GoString.HasPrefix v "become(" then
    arg ← GoString.slice v 7 (GoString.len v - 1);
    Ok {| Type_ := ActionTypeBecome; Arg := arg |}
  else if GoString.HasPrefix v "execute(" then
    arg ← GoString.slice v 8 (GoString.len v - 1);
    Ok {| Type_ := ActionTypeExecute; Arg := arg |}
  else Ok zeroAction.

Definition registerKey (k : string) (action : Action)
    (m : gmap string Action) : result (gmap string Action) :=
  if GoString.len k =? 1 then
    Ok (<[k := action]> m)
  else if GoString.HasPrefix k "ctrl-" && (GoString.len (GoString.drop 5 k) =? 1) then
    match GoString.index k 5 with
    | Some code =>
        let m1 := <[String GoString.ESC ("[" +:+ GoString.decimal code +:+ ";5u") := action]> m in
        if (97 <=? code) && (code <=? 122)
        then Ok (<[GoString.of_byte_rune (GoString.byte_wrap (code - 97 + 1)) := action]> m1)
        else Ok m1
    | None => Panics (IndexOutOfRange 5)
    end
  else if String.eqb k "enter" then
    Ok (<[GoString.NL := action]> m)
  else if String.eqb k "tab" then
    Ok (<[GoString.TAB := action]> m)
  else Panics (PanicMsg ("unknown key: " +:+ k)).

Fixpoint formatKeymap_from (m : gmap string Action) (keymap : bindings)
    : result (gmap string Action) :=
  match keymap with
  | [] => Ok m
  | (k, v) :: rest =>
      action ← parseAction v;
      m' ← registerKey k action m;
      formatKeymap_from m' rest
  end.

Definition formatKeymap (keymap : bindings) : result (gmap string Action) :=
  formatKeymap_from ∅ keymap.

Definition readerGoroutine (isDebug : bool) (flagKeymap : bindings)
    (turns : list Turn) : list ReaderEffect + Termination :=
  match formatKeymap flagKeymap with
  | Ok keymap => inl (reader isDebug keymap turns)
  | Panics p => inr (GoroutinePanic p)
  end.

(** [execSyscall]: here the two failures go through [log.Fatal]. *)
Definition execSyscall (o : Oracle) (args : list string) : Termination :=
  match lookPath o with
  | inr lookErr => OsExit 1
  | inl binary =>
      match execErr o with
      | Some e => OsExit 1
      | None => ExecReplaced (binary :: args)
      end
  end.

(** One iteration of the event loop of [mainWithReturn]. *)
Definition loopIteration (hold : bool) (o : Oracle)
    (childExitChan : chanref) (ev : SelectCase) : option (list Effect * Next) :=
  match ev with
  | RecvChildExit err =>
      match childExitChan with
      | chan_nil => None
      | chan_open =>
          let l := logErr "Command finished with error: " err in
          if negb hold
          then Some (l, Terminate (Returns 0))
          else Some (l ++ [Log "Child process exited, but --hold option is set, waiting for input..."],
                     Continue chan_nil)
      end
  | RecvWinch =>
      Some ([InheritSize] ++ logErr "Error resizing pty: " (resizeErr o),
            Continue childExitChan)
  | RecvAction action =>
      if String.eqb (Type_ action) ActionTypeExit then
        let '(c, l) := stopChild o childExitChan in
        Some (l, Terminate (Returns 0))
      else if String.eqb (Type_ action) ActionTypeBecome then
        let '(c, l) := stopChild o childExitChan in
        Some (l, Terminate (execSyscall o ["-c"; Arg action]))
      else if String.eqb (Type_ action) ActionTypeExecute then
        Some (RunCommand ["bash"; "-c"; Arg action] :: logErr "" (runErr o),
              Continue childExitChan)
      else Some ([], Continue childExitChan)
  end.

(** The calls [mainWithReturn] has deferred when the loop runs. *)
Definition deferred : list Effect := [RestoreTerminal; ClosePtmx].

Definition atExit (t : Termination) : list Effect :=
  if runsDeferred t then deferred else [].

(** [main] calls [os.Exit(code)] when [mainWithReturn] returns a non-zero
    code, and returns otherwise. *)
Definition exitStatus (t : Termination) : option Z :=
  match t with
  | Returns code => Some code
  | MainPanic _ | GoroutinePanic _ => Some 2
  | OsExit code => Some code
  | ExecReplaced _ => None
  end.

(** [ParsedFlag] and [parseFlag] of the second variant: the command and its
    arguments are two fields, and [printHelp] calls [os.Exit(1)]. *)
Record ParsedFlag : Type := {
  Cmd : string;
  Args : list string;
  Keymap : gmap string string;
  Hold : bool;
  Input : string
}.

Section Flags.
Variable TrimSpace : string -> string.

Fixpoint parseArgs (args : list string) (parsed : ParsedFlag)
    : ParsedFlag + Termination :=
  match args with
  | [] => inl parsed
  | a :: rest =>
      if String.eqb a "--" then
        match rest with
        | [] => inr (MainPanic (IndexOutOfRange 1))
        | cmd :: rest' =>
            inl {| Cmd := cmd; Args := rest'; Keymap := Keymap parsed;
                   Hold := Hold parsed; Input := Input parsed |}
        end
      else if String.eqb a "--bind" then
        match rest with
        | [] => inr (MainPanic (IndexOutOfRange 1))
        | kv :: rest' =>
            match GoString.SplitN2 kv with
            | [k; v] =>
                parseArgs rest'
                  {| Cmd := Cmd parsed; Args := Args parsed;
                     Keymap := <[k := TrimSpace v]> (Keymap parsed);
                     Hold := Hold parsed; Input := Input parsed |}
            | _ => inr (OsExit 1)
            end
        end
      else if String.eqb a "--hold" || String.eqb a "-h" then
        parseArgs rest
          {| Cmd := Cmd parsed; Args := Args parsed; Keymap := Keymap parsed;
             Hold := true; Input := Input parsed |}
      else if String.eqb a "--input" then
        match rest with
        | [] => inr (MainPanic (IndexOutOfRange 1))
        | text :: rest' =>
            parseArgs rest'
              {| Cmd := Cmd parsed; Args := Args parsed; Keymap := Keymap parsed;
                 Hold := Hold parsed; Input := text |}
        end
      else
        inl {| Cmd := a; Args := rest; Keymap := Keymap parsed;
               Hold := Hold parsed; Input := Input parsed |}
  end.

Definition parseFlag (args : list string) : ParsedFlag + Termination :=
  match parseArgs args
          {| Cmd := ""; Args := []; Keymap := ∅; Hold := false; Input := "" |} with
  | inl parsed =>
      if String.eqb (Cmd parsed) "" then inr (OsExit 1) else inl parsed
  | inr t => inr t
  end.

End Flags.

Fixpoint eventLoop (hold : bool)
    (events : list (Oracle * SelectCase)) (childExitChan : chanref)
    : option (list Effect * Next) :=
  match events with
  | [] => Some ([], Continue childExitChan)
  | (o, ev) :: rest =>
      match loopIteration hold o childExitChan ev with
      | None => None
      | Some (l, Terminate t) => Some (l, Terminate t)
      | Some (l, Continue c) =>
          match eventLoop hold rest c with
          | Some (l', n) => Some (l ++ l', n)
          | None => None
          end
      end
  end.

End Part000.

(** ** Vocabulary of the statements *)

(** The map a successful compilation returns (empty after a panic). *)
Definition compiled (r : result (gmap string Action)) : gmap string Action :=
  match r with
  | Ok m => m
  | Panics _ => ∅
  end.

(** An action-spec that is neither ["exit"] nor begins with ["become("] or
    ["execute("]. *)
Definition otherSpec (v : string) : Prop :=
  v ≠ "exit" ∧ GoString.HasPrefix v "become(" = false
  ∧ GoString.HasPrefix v "execute(" = false.

(** An action-spec that stops right after the opening parenthesis. *)
Definition bareSpec (v : string) : bool :=
  String.eqb v "become(" || String.eqb v "execute(".

(** The panic of the [default] case of the [switch] on the key literal. *)
Definition unknownKey (k : string) : panic := PanicMsg ("unknown key: " +:+ k).

(** The CSI-u sequence [ESC [ code ; 5 u]. *)
Definition csiU (code : Z) : string :=
  String GoString.ESC ("[" +:+ GoString.decimal code +:+ ";5u").

(** The byte sequences a key literal stands for, in the order in which the
    [switch] registers them; [None] for a literal outside the grammar. *)
Definition keySequences (k : string) : option (list string) :=
  if GoString.len k =? 1 then Some [k]
  else if GoString.HasPrefix k "ctrl-" && (GoString.len (GoString.drop 5 k) =? 1) then
    match GoString.index k 5 with
    | Some code =>
        Some (csiU code ::
              if (97 <=? code) && (code <=? 122)
              then [GoString.of_byte_rune (GoString.byte_wrap (code - 97 + 1))]
              else [])
    | None => None
    end
  else if String.eqb k "enter" then Some [GoString.NL]
  else if String.eqb k "tab" then Some [GoString.TAB]
  else None.

Definition registerAll (seqs : list string) (a : Action)
    (m : gmap string Action) : gmap string Action :=
  foldl (λ acc s, <[s := a]> acc) m seqs.

(** A keymap every binding of which has a key literal of the grammar and an
    action-spec that is not cut right after its parenthesis. *)
Definition wellFormed (keymap : bindings) : Prop :=
  Forall (λ kv, is_Some (keySequences kv.1) ∧ bareSpec kv.2 = false) keymap.

(** An oracle under which every call succeeds at once. *)
Definition quietOracle : Oracle := {|
  sigtermErr := None;
  graceTimers := 0;
  killErr := λ _, None;
  resizeErr := None;
  lookPath := inl "/usr/bin/bash";
  execErr := None;
  runErr := None
|}.

(** A command-line option, and the arguments that spell it. *)
Inductive CliOption : Type :=
| OptBind (k v : string)
| OptHold (short : bool)
| OptInput (text : string).

Definition spell (opt : CliOption) : list string :=
  match opt with
  | OptBind k v => ["--bind"; k +:+ ":" +:+ v]
  | OptHold short => [if short then "-h" else "--hold"]
  | OptInput text => ["--input"; text]
  end.

(** The words the [switch] of [parseFlag] has a case for. *)
Definition optionWord (a : string) : bool :=
  String.eqb a "--" || String.eqb a "--bind" || String.eqb a "--hold"
  || String.eqb a "-h" || String.eqb a "--input".

(** What a list of options amounts to: the bindings, a later one replacing
    an earlier one of the same key, whether hold was asked for, and the
    last text given with [--input]. *)
Definition optKeymap (trim : string -> string) (opts : list CliOption)
    (m : gmap string string) : gmap string string :=
  foldl (λ acc opt, match opt with
                    | OptBind k v => <[k := trim v]> acc
                    | _ => acc
                    end) m opts.

Definition optHold (opts : list CliOption) (h : bool) : bool :=
  foldl (λ acc opt, match opt with OptHold _ => true | _ => acc end) h opts.

Definition optInput (opts : list CliOption) (text : string) : string :=
  foldl (λ acc opt, match opt with OptInput t => t | _ => acc end) text opts.

Definition bindKeyHasNoColon (opt : CliOption) : Prop :=
  match opt with
  | OptBind k _ => GoString.hasByte ":" k = false
  | _ => True
  end.

(** Keymaps in which two different key literals never stand for the same
    byte sequence. *)
Definition collisionFree (keymap : bindings) : Prop :=
  ∀ k v k' v' seqs seqs' s,
    (k, v) ∈ keymap → (k', v') ∈ keymap → k ≠ k' →
    keySequences k = Some seqs → keySequences k' = Some seqs' →
    s ∈ seqs → s ∉ seqs'.

(** The effects other than log lines. *)
Definition withoutLogs (l : list Effect) : list Effect :=
  omap (λ e, match e with Log _ => None | _ => Some e end) l.

(** The turns of a reader whose reads all succeed while the child runs and
    the PTY accepts every write. *)
Definition quietTurns (reads : list string) : list Turn :=
  (λ r, {| readResult := Some r; exitChanNow := chan_open; writeFails := false |})
    <$> reads.

(** [old] occurs in [s]. *)
Definition occursIn (old s : string) : Prop :=
  ∃ before after, s = before +:+ old +:+ after.

(** Whether the replacement of the process image fails, at [exec.LookPath]
    or at [syscall.Exec]. *)
Definition execFails (o : Oracle) : bool :=
  match lookPath o with
  | inr _ => true
  | inl _ => match execErr o with Some _ => true | None => false end
  end.

(** The state of [parseFlag] after the options [opts]. *)
Definition afterOptions (trim : string -> string) (opts : list CliOption)
    (parsed : MainGo.ParsedFlag) : MainGo.ParsedFlag :=
  {| MainGo.Cmd := MainGo.Cmd parsed;
     MainGo.Keymap := optKeymap trim opts (MainGo.Keymap parsed);
     MainGo.Hold := optHold opts (MainGo.Hold parsed);
     MainGo.Input := optInput opts (MainGo.Input parsed) |}.

(** The state of the second variant's [parseFlag] that corresponds to a
    state of the first, for a given command. *)
Definition sameOptions (p : MainGo.ParsedFlag) (q : Part000.ParsedFlag) : Prop :=
  MainGo.Keymap p = Part000.Keymap q ∧ MainGo.Hold p = Part000.Hold q
  ∧ MainGo.Input p = Part000.Input q.

(** The reads of a reader up to its first failed [tty.Read]. *)
Fixpoint readsUntilError (turns : list Turn) : list string :=
  match turns with
  | [] => []
  | t :: rest =>
      match readResult t with
      | None => []
      | Some received => received :: readsUntilError rest
      end
  end.

(** The effects that are signals sent to the child. *)
Definition signalsOf (l : list Effect) : list signal :=
  omap (λ e, match e with Signal sig => Some sig | _ => None end) l.

(** ** Lemmas on the string primitives *)

Lemma prefix_length (p s : string) :
  String.prefix p s = true → (String.length p ≤ String.length s)%nat.
Proof.
  revert s. induction p as [|a p IH]; intros s H; [simpl; lia|].
  destruct s as [|b s]; simpl in H; [discriminate|].
  destruct (ascii_dec a b); [|discriminate].
  simpl. apply IH in H. lia.
Qed.

Lemma prefix_same_length (p s : string) :
  String.prefix p s = true → String.length s = String.length p → s = p.
Proof.
  revert s. induction p as [|a p IH]; intros s H L.
  - destruct s; [done|discriminate].
  - destruct s as [|b s]; simpl in H; [discriminate|].
    destruct (ascii_dec a b) as [->|]; [|discriminate].
    f_equal. apply IH; [done|]. simpl in L. lia.
Qed.

Lemma slice_ok (s : string) (lo : Z) :
  0 ≤ lo → lo < GoString.len s →
  ∃ r, GoString.slice s lo (GoString.len s - 1) = Ok r.
Proof.
  intros H0 H1. unfold GoString.slice.
  destruct (_ && _ && _) eqn:E; [eauto|].
  exfalso. apply andb_false_iff in E as [E|E].
  - apply andb_false_iff in E as [E|E]; lia.
  - lia.
Qed.

Lemma substring_empty_length (n : nat) (s : string) :
  String.length (String.substring n 0 s) = 0%nat.
Proof.
  revert n. induction s as [|c s IH]; intros [|n]; simpl; auto.
Qed.

Lemma get_in_range (i : nat) (s : string) :
  (i < String.length s)%nat → is_Some (String.get i s).
Proof.
  revert i. induction s as [|c s IH]; intros i H; simpl in *; [lia|].
  destruct i as [|i]; [eauto|]. apply IH. lia.
Qed.

(** After the guard of the [ctrl-] case, [k[5]] is in range. *)
Lemma ctrl_guard_index (k : string) :
  GoString.HasPrefix k "ctrl-" && (GoString.len (GoString.drop 5 k) =? 1) = true →
  is_Some (GoString.index k 5).
Proof.
  intros H. apply andb_true_iff in H as [Hp Hl].
  apply prefix_length in Hp. simpl in Hp.
  assert (5 < String.length k)%nat as Hlt.
  { destruct (decide (String.length k = 5%nat)) as [E|]; [|lia].
    exfalso. unfold GoString.drop, GoString.len in Hl. rewrite E in Hl.
    replace (5 - 5)%nat with 0%nat in Hl by lia.
    rewrite substring_empty_length in Hl. discriminate. }
  unfold GoString.index.
  destruct (get_in_range 5 k Hlt) as [c ->]. eauto.
Qed.

(** ** Lemmas on the keymap compiler *)

Lemma parseAction_other (v : string) :
  otherSpec v → MainGo.parseAction v = Ok zeroAction.
Proof.
  intros (Hexit & Hb & He). unfold MainGo.parseAction.
  destruct (String.eqb_spec v "exit"); [contradiction|].
  by rewrite Hb, He.
Qed.

Lemma parseAction_total (v : string) :
  bareSpec v = false → ∃ a, MainGo.parseAction v = Ok a.
Proof.
  intros Hbare. apply orb_false_iff in Hbare as [Hb He].
  apply String.eqb_neq in Hb, He.
  unfold MainGo.parseAction.
  destruct (String.eqb v "exit"); [eauto|].
  destruct (GoString.HasPrefix v "become(") eqn:Pb.
  { destruct (slice_ok v 7) as [r ->]; [lia| |simpl; eauto].
    pose proof (prefix_length _ _ Pb) as L. simpl in L.
    destruct (decide (String.length v = 7%nat)) as [E|];
      [|unfold GoString.len; lia].
    exfalso. apply Hb. by apply prefix_same_length. }
  destruct (GoString.HasPrefix v "execute(") eqn:Pe; [|eauto].
  destruct (slice_ok v 8) as [r ->]; [lia| |simpl; eauto].
  pose proof (prefix_length _ _ Pe) as L. simpl in L.
  destruct (decide (String.length v = 8%nat)) as [E|];
    [|unfold GoString.len; lia].
  exfalso. apply He. by apply prefix_same_length.
Qed.

Lemma registerKey_sequences (k : string) (a : Action) (m : gmap string Action)
    (seqs : list string) :
  keySequences k = Some seqs →
  MainGo.registerKey k a m = Ok (registerAll seqs a m).
Proof.
  unfold keySequences, MainGo.registerKey, registerAll, csiU.
  destruct (GoString.len k =? 1); [by intros [= <-]|].
  destruct (_ && _).
  { destruct (GoString.index k 5) as [code|]; [|done].
    destruct (_ && _); by intros [= <-]. }
  destruct (String.eqb k "enter"); [by intros [= <-]|].
  destruct (String.eqb k "tab"); [by intros [= <-]|done].
Qed.

Lemma registerKey_unknown (k : string) (a : Action) (m : gmap string Action) :
  keySequences k = None → MainGo.registerKey k a m = Panics (unknownKey k).
Proof.
  unfold keySequences, MainGo.registerKey, unknownKey.
  destruct (GoString.len k =? 1); [done|].
  destruct (_ && _) eqn:G.
  { destruct (ctrl_guard_index k G) as [code ->]. done. }
  destruct (String.eqb k "enter"); [done|].
  destruct (String.eqb k "tab"); done.
Qed.

Lemma lookup_registerAll (seqs : list string) (a : Action)
    (m : gmap string Action) (s : string) :
  registerAll seqs a m !! s = if decide (s ∈ seqs) then Some a else m !! s.
Proof.
  unfold registerAll. revert m.
  induction seqs as [|x seqs IH]; intros m; cbn [foldl].
  - destruct (decide (s ∈ [])) as [H|]; [by apply elem_of_nil in H|done].
  - rewrite IH. destruct (decide (s ∈ seqs)) as [Hin|Hnin].
    + rewrite decide_True by (by right). done.
    + destruct (decide (s = x)) as [->|Hne].
      * rewrite decide_True by (by left). apply lookup_insert_eq.
      * rewrite decide_False by (rewrite elem_of_cons; tauto).
        by apply lookup_insert_ne.
Qed.

(** A well-formed keymap compiles, from any starting map. *)
Lemma formatKeymap_from_succeeds (keymap : bindings) (m : gmap string Action) :
  wellFormed keymap → ∃ m', MainGo.formatKeymap_from m keymap = Ok m'.
Proof.
  intros Hwf. revert m. induction Hwf as [|[k v] rest [[seqs Hk] Hv] _ IH];
    intros m; simpl; [eauto|].
  destruct (parseAction_total v Hv) as [a ->]. simpl.
  rewrite (registerKey_sequences _ _ _ _ Hk). simpl. apply IH.
Qed.

(** Bindings whose keys do not stand for [s] leave the entry of [s] alone. *)
Lemma formatKeymap_from_untouched (keymap : bindings)
    (m m' : gmap string Action) (s : string) :
  MainGo.formatKeymap_from m keymap = Ok m' →
  (∀ k v seqs, (k, v) ∈ keymap → keySequences k = Some seqs → s ∉ seqs) →
  m' !! s = m !! s.
Proof.
  revert m. induction keymap as [|[k v] rest IH]; intros m Hrun Hfree; simpl in Hrun.
  - by injection Hrun as <-.
  - destruct (MainGo.parseAction v) as [a|]; [|done]. simpl in Hrun.
    destruct (keySequences k) as [seqs|] eqn:Hk.
    + rewrite (registerKey_sequences _ a m _ Hk) in Hrun. simpl in Hrun.
      rewrite (IH _ Hrun).
      * rewrite lookup_registerAll.
        rewrite decide_False; [done|]. apply (Hfree k v seqs); [left|done].
      * intros k' v' seqs' Hin. apply (Hfree k' v' seqs'). by right.
    + by rewrite (registerKey_unknown _ a m Hk) in Hrun.
Qed.

(** The two variants of [formatKeymap] are the same function. *)
Lemma parseAction_variants_agree (v : string) :
  MainGo.parseAction v = Part000.parseAction v.
Proof. reflexivity. Qed.

Lemma registerKey_variants_agree (k : string) (a : Action) (m : gmap string Action) :
  MainGo.registerKey k a m = Part000.registerKey k a m.
Proof. reflexivity. Qed.

Lemma formatKeymap_from_variants_agree (keymap : bindings) (m : gmap string Action) :
  MainGo.formatKeymap_from m keymap = Part000.formatKeymap_from m keymap.
Proof.
  revert m. induction keymap as [|[k v] rest IH]; intros m; [done|].
  cbn [MainGo.formatKeymap_from Part000.formatKeymap_from].
  rewrite (parseAction_variants_agree v).
  destruct (Part000.parseAction v) as [a|p]; [|done].
  cbn [mbind result_bind].
  rewrite (registerKey_variants_agree k a m).
  destruct (Part000.registerKey k a m) as [m'|p]; [apply IH|done].
Qed.

Lemma formatKeymap_variants_agree (keymap : bindings) :
  MainGo.formatKeymap keymap = Part000.formatKeymap keymap.
Proof. apply formatKeymap_from_variants_agree. Qed.

(** The outcomes of the compiler: a mapping, the panic of an unknown key
    literal of the keymap, or the panic of the slice on a spec that is
    exactly ["become("] or ["execute("]. *)
Lemma formatKeymap_from_outcomes (keymap : bindings) (m : gmap string Action) :
  (∃ k, k ∈ keymap.*1 ∧ MainGo.formatKeymap_from m keymap = Panics (unknownKey k))
  ∨ (∃ m', MainGo.formatKeymap_from m keymap = Ok m')
  ∨ (∃ k, (k, "become(") ∈ keymap
          ∧ MainGo.formatKeymap_from m keymap = Panics (SliceBoundsOutOfRange 7 6))
  ∨ (∃ k, (k, "execute(") ∈ keymap
          ∧ MainGo.formatKeymap_from m keymap = Panics (SliceBoundsOutOfRange 8 7)).
Proof.
  revert m. induction keymap as [|[k v] rest IH]; intros m.
  { right. left. by exists m. }
  cbn [MainGo.formatKeymap_from].
  destruct (bareSpec v) eqn:Hv.
  { apply orb_true_iff in Hv as [Hv|Hv]; apply String.eqb_eq in Hv as ->.
    - right. right. left. exists k. split; [by left|done].
    - right. right. right. exists k. split; [by left|done]. }
  destruct (parseAction_total v Hv) as [a ->]. cbn [mbind result_bind].
  destruct (keySequences k) as [seqs|] eqn:Hk.
  - rewrite (registerKey_sequences _ a m _ Hk). cbn [mbind result_bind].
    destruct (IH (registerAll seqs a m))
      as [(k' & Hin & ->)|[[m' ->]|[(k' & Hin & ->)|(k' & Hin & ->)]]].
    + left. exists k'. split; [rewrite fmap_cons; by right|done].
    + right. left. by exists m'.
    + right. right. left. exists k'. split; [by right|done].
    + right. right. right. exists k'. split; [by right|done].
  - rewrite (registerKey_unknown _ a m Hk). cbn [mbind result_bind].
    left. exists k. split; [rewrite fmap_cons; by left|done].
Qed.


(** The compiler only adds or overwrites entries. *)
Lemma formatKeymap_from_monotone (keymap : bindings)
    (m m' : gmap string Action) (s : string) :
  MainGo.formatKeymap_from m keymap = Ok m' →
  is_Some (m !! s) → is_Some (m' !! s).
Proof.
  revert m. induction keymap as [|[k v] rest IH]; intros m Hrun Hs; simpl in Hrun.
  - by injection Hrun as <-.
  - destruct (MainGo.parseAction v) as [a|]; [|done]. simpl in Hrun.
    destruct (keySequences k) as [seqs|] eqn:Hk.
    + rewrite (registerKey_sequences _ a m _ Hk) in Hrun. simpl in Hrun.
      apply (IH _ Hrun). rewrite lookup_registerAll.
      destruct (decide (s ∈ seqs)); eauto.
    + by rewrite (registerKey_unknown _ a m Hk) in Hrun.
Qed.

Lemma formatKeymap_from_registers (keymap : bindings)
    (m m' : gmap string Action) (k v : string) (seqs : list string) (s : string) :
  MainGo.formatKeymap_from m keymap = Ok m' →
  (k, v) ∈ keymap → keySequences k = Some seqs → s ∈ seqs →
  is_Some (m' !! s).
Proof.
  intros Hrun Hin Hk Hs. revert m Hrun.
  induction keymap as [|[k0 v0] rest IH]; intros m Hrun;
    [by apply elem_of_nil in Hin|].
  simpl in Hrun.
  destruct (MainGo.parseAction v0) as [a|]; [|done]. simpl in Hrun.
  apply elem_of_cons in Hin as [[= <- <-]|Hin].
  - rewrite (registerKey_sequences _ a m _ Hk) in Hrun. simpl in Hrun.
    apply (formatKeymap_from_monotone _ _ _ _ Hrun).
    rewrite lookup_registerAll, decide_True by done. eauto.
  - destruct (MainGo.registerKey k0 a m) as [m0|]; [|done]. simpl in Hrun.
    by apply (IH Hin m0).
Qed.

(** In a keymap without repeated keys, a sequence that only the key [k]
    stands for ends up bound to the action parsed from the spec of [k]. *)
Lemma formatKeymap_from_binding (keymap : bindings)
    (m m' : gmap string Action) (k v : string) (a : Action)
    (seqs : list string) (s : string) :
  MainGo.formatKeymap_from m keymap = Ok m' →
  NoDup keymap.*1 →
  (k, v) ∈ keymap → MainGo.parseAction v = Ok a →
  keySequences k = Some seqs → s ∈ seqs →
  (∀ k' v' seqs', (k', v') ∈ keymap → k' ≠ k →
                  keySequences k' = Some seqs' → s ∉ seqs') →
  m' !! s = Some a.
Proof.
  intros Hrun Hnd Hin Hv Hk Hs Hfree. revert m Hrun.
  induction keymap as [|[k0 v0] rest IH]; intros m Hrun;
    [by apply elem_of_nil in Hin|].
  simpl in Hrun. rewrite fmap_cons in Hnd.
  apply NoDup_cons in Hnd as [Hfresh Hnd].
  apply elem_of_cons in Hin as [[= <- <-]|Hin].
  - rewrite Hv in Hrun. simpl in Hrun.
    rewrite (registerKey_sequences _ a m _ Hk) in Hrun. simpl in Hrun.
    rewrite (formatKeymap_from_untouched _ _ _ s Hrun).
    + by rewrite lookup_registerAll, decide_True.
    + intros k' v' seqs' Hin' Hk'. apply (Hfree k' v' seqs'); [by right| |done].
      intros ->. apply Hfresh. apply list_elem_of_fmap. by exists (k, v').
  - destruct (MainGo.parseAction v0) as [a0|]; [|done]. simpl in Hrun.
    destruct (MainGo.registerKey k0 a0 m) as [m0|]; [|done]. simpl in Hrun.
    apply (IH Hnd Hin) with (m := m0); [|done].
    intros k' v' seqs' Hin'. apply (Hfree k' v' seqs'). by right.
Qed.


(** Deferred calls restore the terminal exactly on the paths that run them. *)
Lemma restore_iff_deferred (stdinFile : option string) (t : Termination) :
  RestoreTerminal ∈ MainGo.atExit stdinFile t ↔ runsDeferred t = true.
Proof.
  unfold MainGo.atExit, MainGo.deferred.
  destruct (runsDeferred t); split; intros H; try done.
  - by left.
  - by apply elem_of_nil in H.
Qed.

(** The named keys: [enter] is looked up by the newline byte and [tab] by
    the tab byte. *)
Example enter_tab_lookup :
  compiled (MainGo.formatKeymap [("enter", "exit"); ("tab", "execute(date)")])
    !! GoString.NL = Some {| Type_ := ActionTypeExit; Arg := "" |}
  ∧ compiled (MainGo.formatKeymap [("enter", "exit"); ("tab", "execute(date)")])
    !! GoString.TAB = Some {| Type_ := ActionTypeExecute; Arg := "date" |}.
Proof. split; vm_compute; reflexivity. Qed.

(** The argument is the spec without its first seven (eight) bytes and its
    last byte, whatever that byte is. *)
Example become_drops_last_byte :
  MainGo.parseAction "become(ls)" = Ok {| Type_ := ActionTypeBecome; Arg := "ls" |}
  ∧ MainGo.parseAction "become(ls" = Ok {| Type_ := ActionTypeBecome; Arg := "l" |}
  ∧ MainGo.parseAction "execute()" = Ok {| Type_ := ActionTypeExecute; Arg := "" |}.
Proof. repeat split. Qed.

(** ** The input reader *)

(** C1: when the bytes of a read are a key of the compiled keymap and debug
    mode is off, the reader puts exactly one copy of the bound action on the
    action queue and writes nothing to the PTY master (whatever the state of
    the child, so in particular while it is running). *)
Theorem mapped_read_enqueues_bound_action
    (keymap : gmap string Action) (received : string) (action : Action)
    (childExitChan : chanref) :
  keymap !! received = Some action →
  enqueued (readerIteration false keymap childExitChan received) = [action]
  ∧ forwarded (readerIteration false keymap childExitChan received) = [].
Proof.
  intros Hbound. unfold readerIteration. by rewrite Hbound.
Qed.

(** The keymap [q:exit]: the byte [q] gives one Exit action and no bytes. *)
Lemma mapped_read_enqueues_bound_action_witness :
  compiled (MainGo.formatKeymap [("q", "exit")]) !! "q"
    = Some {| Type_ := ActionTypeExit; Arg := "" |}
  ∧ enqueued (readerIteration false (compiled (MainGo.formatKeymap [("q", "exit")]))
                chan_open "q")
    = [{| Type_ := ActionTypeExit; Arg := "" |}]
  ∧ forwarded (readerIteration false (compiled (MainGo.formatKeymap [("q", "exit")]))
                 chan_open "q")
    = [].
Proof.
  split; [vm_compute; reflexivity|].
  apply (mapped_read_enqueues_bound_action
           (compiled (MainGo.formatKeymap [("q", "exit")])) "q"
           {| Type_ := ActionTypeExit; Arg := "" |} chan_open).
  vm_compute; reflexivity.
Defined.

(** C2: when the bytes of a read are not a key of the compiled keymap, the
    exit of the child has not been observed ([childExitChan] is not nil) and
    debug mode is off, the reader writes exactly those bytes to the PTY
    master and puts no action on the queue. *)
Theorem unmapped_read_is_forwarded
    (keymap : gmap string Action) (received : string) :
  keymap !! received = None →
  forwarded (readerIteration false keymap chan_open received) = [received]
  ∧ enqueued (readerIteration false keymap chan_open received) = [].
Proof.
  intros Hfree. unfold readerIteration. by rewrite Hfree.
Qed.

Lemma unmapped_read_is_forwarded_witness :
  compiled (MainGo.formatKeymap [("q", "exit")]) !! "x" = None
  ∧ forwarded (readerIteration false (compiled (MainGo.formatKeymap [("q", "exit")]))
                 chan_open "x")
    = ["x"]
  ∧ enqueued (readerIteration false (compiled (MainGo.formatKeymap [("q", "exit")]))
                chan_open "x")
    = [].
Proof.
  split; [vm_compute; reflexivity|].
  apply (unmapped_read_is_forwarded
           (compiled (MainGo.formatKeymap [("q", "exit")])) "x").
  vm_compute; reflexivity.
Defined.

(** C6, as stated, fails when debug mode is on: after the loop has observed
    the exit of the child in hold mode, an unmapped read is only logged and
    no Exit action is enqueued. *)
Lemma hold_dismiss_counterexample :
  MainGo.loopIteration true None quietOracle chan_open (RecvChildExit None)
    = Some ([Log "Child process exited, but --hold option is set, waiting for input..."],
            Continue chan_nil)
  ∧ (∅ : gmap string Action) !! "x" = None
  ∧ readerIteration true ∅ chan_nil "x" = LogKey "x" zeroAction
  ∧ enqueued (readerIteration true ∅ chan_nil "x") = [].
Proof. repeat split. Qed.

(** C6 (amended): once the event loop has observed the exit of the child
    with hold mode enabled, and debug mode is off, a read whose bytes are
    not a key of the keymap puts exactly one Exit action on the queue and
    writes nothing to the PTY master. *)
Theorem unmapped_read_dismisses_hold
    (stdinFile : option string) (o : Oracle) (err : option string)
    (logged : list Effect) (childExitChan : chanref)
    (keymap : gmap string Action) (received : string) :
  MainGo.loopIteration true stdinFile o chan_open (RecvChildExit err)
    = Some (logged, Continue childExitChan) →
  keymap !! received = None →
  enqueued (readerIteration false keymap childExitChan received)
    = [{| Type_ := ActionTypeExit; Arg := "" |}]
  ∧ forwarded (readerIteration false keymap childExitChan received) = [].
Proof.
  intros Hloop Hfree. simpl in Hloop. injection Hloop as _ <-.
  unfold readerIteration. by rewrite Hfree.
Qed.

Lemma unmapped_read_dismisses_hold_witness :
  MainGo.loopIteration true None quietOracle chan_open (RecvChildExit None)
    = Some ([Log "Child process exited, but --hold option is set, waiting for input..."],
            Continue chan_nil)
  ∧ compiled (MainGo.formatKeymap [("q", "exit")]) !! "x" = None
  ∧ enqueued (readerIteration false (compiled (MainGo.formatKeymap [("q", "exit")]))
                chan_nil "x")
    = [{| Type_ := ActionTypeExit; Arg := "" |}]
  ∧ forwarded (readerIteration false (compiled (MainGo.formatKeymap [("q", "exit")]))
                 chan_nil "x")
    = [].
Proof.
  split; [reflexivity|]. split; [vm_compute; reflexivity|].
  apply (unmapped_read_dismisses_hold None quietOracle None
           [Log "Child process exited, but --hold option is set, waiting for input..."]
           chan_nil (compiled (MainGo.formatKeymap [("q", "exit")])) "x").
  - reflexivity.
  - vm_compute; reflexivity.
Defined.

(** ** The shutdown escalator *)

(** C8: [stopChild] called once the exit of the child has been observed
    ([childExitChan] is nil) returns at once: no signal is sent, no timer is
    waited for, nothing is logged and [childExitChan] is unchanged; so a
    second [stopChild] after a first one does nothing. *)
Theorem stopChild_after_exit_is_noop (o o' : Oracle) (childExitChan : chanref) :
  stopChild o chan_nil = (chan_nil, [])
  ∧ stopChild o' (stopChild o childExitChan).1
    = ((stopChild o childExitChan).1, []).
Proof.
  split; [reflexivity|]. by destruct childExitChan.
Qed.

(** ** The exit status *)

(** C3, as stated, fails: the child exits with a failure, hold mode is off,
    and the exit status of the supervisor is 0 in both variants. *)
Lemma exit_status_counterexample :
  MainGo.loopIteration false None quietOracle chan_open
      (RecvChildExit (Some "exit status 1"))
    = Some ([Log "Command finished with error: exit status 1"], Terminate (Returns 0))
  ∧ MainGo.exitStatus (Returns 0) = Some 0
  ∧ Part000.loopIteration false quietOracle chan_open
      (RecvChildExit (Some "exit status 1"))
    = Some ([Log "Command finished with error: exit status 1"], Terminate (Returns 0))
  ∧ Part000.exitStatus (Returns 0) = Some 0.
Proof. repeat split. Qed.

(** C3 (amended): when the child exits on its own and hold mode is not
    requested, the event loop returns and the exit status of the supervisor
    is 0, whether the child completed cleanly or failed; a failure of the
    child is only logged. *)
Theorem exit_status_zero_after_child_exit
    (stdinFile : option string) (o : Oracle) (err : option string) :
  MainGo.loopIteration false stdinFile o chan_open (RecvChildExit err)
    = Some (logErr "Command finished with error: " err, Terminate (Returns 0))
  ∧ MainGo.exitStatus (Returns 0) = Some 0
  ∧ Part000.loopIteration false o chan_open (RecvChildExit err)
    = Some (logErr "Command finished with error: " err, Terminate (Returns 0))
  ∧ Part000.exitStatus (Returns 0) = Some 0.
Proof. repeat split. Qed.

(** ** Restoring the terminal *)

(** C4 fails on the Become path.  With the binding
    [ctrl-e:become(echo hi)] and standard input collected into a file, the
    byte 5 is dispatched as a Become action; [stopChild] runs, then
    [syscall.Exec] replaces the process image, and none of the deferred
    calls runs: [term.Restore] is not called.  The second variant does the
    same.  A key literal outside the grammar makes [formatKeymap] panic in
    the reader goroutine, after raw mode was entered, and that path does
    not run the deferred calls either. *)
Theorem become_path_skips_restore :
  let ctrl_e := String (ascii_of_nat 5) EmptyString in
  let become := {| Type_ := ActionTypeBecome; Arg := "echo hi" |} in
  let replaced := ExecReplaced ["/usr/bin/bash"; "-c"; "echo hi"] in
  readerIteration false
      (compiled (MainGo.formatKeymap [("ctrl-e", "become(echo hi)")]))
      chan_open ctrl_e
    = SendAction become
  ∧ MainGo.loopIteration false (Some "/tmp/keywrap-stdin42") quietOracle
      chan_open (RecvAction become)
    = Some ([Signal SIGTERM], Terminate replaced)
  ∧ (RestoreTerminal ∉ MainGo.atExit (Some "/tmp/keywrap-stdin42") replaced)
  ∧ Part000.loopIteration false quietOracle chan_open (RecvAction become)
    = Some ([Signal SIGTERM], Terminate replaced)
  ∧ (RestoreTerminal ∉ Part000.atExit replaced)
  ∧ MainGo.readerGoroutine false [("f1", "exit")] []
    = inr (GoroutinePanic (unknownKey "f1"))
  ∧ (RestoreTerminal ∉ MainGo.atExit None (GoroutinePanic (unknownKey "f1"))).
Proof.
  cbv zeta. repeat split; try (vm_compute; reflexivity);
    intros H; vm_compute in H; by apply elem_of_nil in H.
Qed.

(** ** The keymap compiler *)

(** C5, as stated, fails: the spec [quit] is none of the three forms and
    compilation returns a mapping. *)
Lemma unknown_spec_counterexample :
  otherSpec "quit"
  ∧ MainGo.formatKeymap [("q", "quit")] = Ok {[ "q" := zeroAction ]}.
Proof.
  split; [|vm_compute; reflexivity].
  repeat split; [discriminate|vm_compute; reflexivity..].
Qed.

(** C5 (amended): a binding whose action-spec is neither ["exit"] nor
    begins with ["become("] or ["execute("] is not a configuration error.
    Its spec is read as the zero-valued action, and a keymap that contains
    it, with every key literal in the grammar and no spec cut right after
    its parenthesis, compiles to a mapping that has an entry for each byte
    sequence of the binding's key. *)
Theorem unknown_spec_is_not_an_error
    (keymap : bindings) (k v : string) (seqs : list string) :
  (k, v) ∈ keymap → otherSpec v → wellFormed keymap →
  keySequences k = Some seqs →
  MainGo.parseAction v = Ok zeroAction
  ∧ ∃ m, MainGo.formatKeymap keymap = Ok m
         ∧ ∀ s, s ∈ seqs → is_Some (m !! s).
Proof.
  intros Hin Hv Hwf Hk. split; [by apply parseAction_other|].
  destruct (formatKeymap_from_succeeds keymap ∅ Hwf) as [m Hm].
  exists m. split; [done|].
  intros s Hs. by apply (formatKeymap_from_registers keymap ∅ m k v seqs s).
Qed.

Lemma unknown_spec_is_not_an_error_witness :
  MainGo.parseAction "quit" = Ok zeroAction
  ∧ ∃ m, MainGo.formatKeymap [("ctrl-e", "become(nvim a.json)"); ("q", "quit")] = Ok m
         ∧ ∀ s, s ∈ ["q"] → is_Some (m !! s).
Proof.
  apply (unknown_spec_is_not_an_error
           [("ctrl-e", "become(nvim a.json)"); ("q", "quit")] "q" "quit" ["q"]).
  - right. left.
  - repeat split; [discriminate|vm_compute; reflexivity..].
  - repeat constructor; vm_compute; eauto.
  - vm_compute; reflexivity.
Defined.

(** C7: compiling [ctrl-a], bound to a spec that parses to the action [a],
    gives a mapping with exactly two entries, the control byte 1 and the
    CSI-u sequence [ESC [ 9 7 ; 5 u], and both are bound to [a]. *)
Theorem ctrl_a_registers_two_sequences (v : string) (a : Action) :
  MainGo.parseAction v = Ok a →
  let x01 := String (ascii_of_nat 1) EmptyString in
  let csi := String GoString.ESC "[97;5u" in
  ∃ m, MainGo.formatKeymap [("ctrl-a", v)] = Ok m
       ∧ dom m = {[ x01; csi ]}
       ∧ size m = 2%nat
       ∧ m !! x01 = Some a
       ∧ m !! csi = Some a.
Proof.
  intros Hv x01 csi.
  exists (<[x01 := a]> (<[csi := a]> ∅)).
  assert (x01 ≠ csi) as Hne by discriminate.
  split; [|split; [|split; [|split]]].
  - unfold MainGo.formatKeymap. cbn [MainGo.formatKeymap_from].
    rewrite Hv. cbn [mbind result_bind].
    rewrite (registerKey_sequences "ctrl-a" a ∅ [csi; x01]); [done|].
    vm_compute; reflexivity.
  - rewrite !dom_insert_L, dom_empty_L. set_solver.
  - rewrite map_size_insert_None.
    + by rewrite map_size_insert_None, map_size_empty by apply lookup_empty.
    + rewrite lookup_insert_ne by done. apply lookup_empty.
  - apply lookup_insert_eq.
  - rewrite lookup_insert_ne by done. apply lookup_insert_eq.
Qed.

Lemma ctrl_a_registers_two_sequences_witness :
  MainGo.parseAction "become(nvim a.json)"
    = Ok {| Type_ := ActionTypeBecome; Arg := "nvim a.json" |}
  ∧ ∃ m, MainGo.formatKeymap [("ctrl-a", "become(nvim a.json)")] = Ok m
         ∧ dom m = {[ String (ascii_of_nat 1) EmptyString; String GoString.ESC "[97;5u" ]}
         ∧ size m = 2%nat
         ∧ m !! String (ascii_of_nat 1) EmptyString
           = Some {| Type_ := ActionTypeBecome; Arg := "nvim a.json" |}
         ∧ m !! String GoString.ESC "[97;5u"
           = Some {| Type_ := ActionTypeBecome; Arg := "nvim a.json" |}.
Proof.
  split; [vm_compute; reflexivity|].
  apply (ctrl_a_registers_two_sequences "become(nvim a.json)"
           {| Type_ := ActionTypeBecome; Arg := "nvim a.json" |}).
  vm_compute; reflexivity.
Defined.




(** C10 fails on a spec cut right after its parenthesis.  On the one-entry
    map [a:become(] both variants evaluate the slice [v[7:len(v)-1]], that
    is [v[7:6]], without a check and panic with slice bounds out of range:
    neither of them fails on an unknown key literal and neither returns a
    mapping. *)
Theorem bare_spec_panics_in_both_variants :
  MainGo.formatKeymap [("a", "become(")] = Panics (SliceBoundsOutOfRange 7 6)
  ∧ Part000.formatKeymap [("a", "become(")] = Panics (SliceBoundsOutOfRange 7 6)
  ∧ ¬ ((∃ k, MainGo.formatKeymap [("a", "become(")] = Panics (unknownKey k)
            ∧ Part000.formatKeymap [("a", "become(")] = Panics (unknownKey k))
       ∨ (∃ m, MainGo.formatKeymap [("a", "become(")] = Ok m
               ∧ Part000.formatKeymap [("a", "become(")] = Ok m)).
Proof.
  split; [vm_compute; reflexivity|]. split; [vm_compute; reflexivity|].
  intros [(k & H & _)|(m & H & _)]; vm_compute in H; discriminate.
Qed.

(** ** More on the keymap compiler *)

Lemma length_append (s t : string) :
  String.length (s +:+ t) = (String.length s + String.length t)%nat.
Proof. induction s as [|c s IH]; simpl; [done|]. by rewrite IH. Qed.

Lemma substring_append_prefix (s t : string) :
  String.substring 0 (String.length s) (s +:+ t) = s.
Proof.
  induction s as [|c s IH]; simpl.
  - by destruct t.
  - by rewrite IH.
Qed.

Lemma prefix_append (p t : string) : String.prefix p (p +:+ t) = true.
Proof.
  induction p as [|a p IH]; simpl; [by destruct t|].
  by destruct (ascii_dec a a).
Qed.

Lemma substring_skip_prefix (p t : string) (n : nat) :
  String.substring (String.length p) n (p +:+ t) = String.substring 0 n t.
Proof. induction p as [|a p IH]; [done|exact IH]. Qed.

Lemma slice_middle (lo : Z) (p s : string) (c : ascii) :
  Z.of_nat (String.length p) = lo →
  GoString.slice (p +:+ s +:+ String c EmptyString) lo
    (GoString.len (p +:+ s +:+ String c EmptyString) - 1) = Ok s.
Proof.
  intros <-. unfold GoString.slice, GoString.len.
  rewrite !length_append. simpl String.length.
  destruct (_ && _ && _) eqn:E.
  2:{ exfalso. apply andb_false_iff in E as [E|E];
        [apply andb_false_iff in E as [E|E]|]; apply Z.leb_gt in E; lia. }
  f_equal. rewrite Nat2Z.id.
  replace (Z.to_nat _) with (String.length s) by lia.
  rewrite substring_skip_prefix. apply substring_append_prefix.
Qed.

(** X1: the argument of [become(...)] and [execute(...)] is the text between
    the opening parenthesis and the last byte of the spec; that last byte
    is dropped without being compared with a closing parenthesis. *)
Theorem parseAction_captures_argument (s : string) (c : ascii) :
  MainGo.parseAction ("become(" +:+ s +:+ String c EmptyString)
    = Ok {| Type_ := ActionTypeBecome; Arg := s |}
  ∧ MainGo.parseAction ("execute(" +:+ s +:+ String c EmptyString)
    = Ok {| Type_ := ActionTypeExecute; Arg := s |}.
Proof.
  split; unfold MainGo.parseAction.
  - change (String.eqb ("become(" +:+ _) "exit") with false. cbv iota.
    unfold GoString.HasPrefix. rewrite prefix_append.
    by rewrite (slice_middle 7 "become(" s c).
  - replace (String.eqb ("execute(" +:+ _) "exit") with false.
    2:{ simpl. by destruct s. }
    replace (GoString.HasPrefix _ "become(") with false by done.
    unfold GoString.HasPrefix. rewrite prefix_append.
    by rewrite (slice_middle 8 "execute(" s c).
Qed.

Lemma parseAction_bare (v : string) :
  bareSpec v = true →
  ∃ lo, MainGo.parseAction v = Panics (SliceBoundsOutOfRange lo (lo - 1)).
Proof.
  intros H. apply orb_true_iff in H as [H|H]; apply String.eqb_eq in H as ->.
  - by exists 7.
  - by exists 8.
Qed.

Lemma formatKeymap_from_app (l1 l2 : bindings) (m : gmap string Action) :
  MainGo.formatKeymap_from m (l1 ++ l2)
  = match MainGo.formatKeymap_from m l1 with
    | Ok m1 => MainGo.formatKeymap_from m1 l2
    | Panics p => Panics p
    end.
Proof.
  revert m. induction l1 as [|[k v] l1 IH]; intros m; simpl; [done|].
  destruct (MainGo.parseAction v) as [a|]; simpl; [|done].
  destruct (MainGo.registerKey k a m) as [m'|]; simpl; [apply IH|done].
Qed.

Lemma formatKeymap_from_wellFormed (keymap : bindings) (m m' : gmap string Action) :
  MainGo.formatKeymap_from m keymap = Ok m' → wellFormed keymap.
Proof.
  revert m. induction keymap as [|[k v] rest IH]; intros m Hrun; [constructor|].
  simpl in Hrun.
  destruct (bareSpec v) eqn:Hv.
  { destruct (parseAction_bare v Hv) as [lo Hp]. by rewrite Hp in Hrun. }
  destruct (MainGo.parseAction v) as [a|]; [|done]. simpl in Hrun.
  destruct (keySequences k) as [seqs|] eqn:Hk.
  - rewrite (registerKey_sequences _ a m _ Hk) in Hrun. simpl in Hrun.
    constructor; [eauto|]. by apply (IH _ Hrun).
  - by rewrite (registerKey_unknown _ a m Hk) in Hrun.
Qed.

(** X2: [formatKeymap] returns a mapping exactly when every key literal of
    the keymap is in the grammar and no action-spec is exactly ["become("]
    or ["execute("]; in every other case it panics. *)
Theorem formatKeymap_succeeds_iff (keymap : bindings) :
  (∃ m, MainGo.formatKeymap keymap = Ok m) ↔ wellFormed keymap.
Proof.
  split.
  - intros [m Hm]. by apply (formatKeymap_from_wellFormed keymap ∅ m).
  - apply formatKeymap_from_succeeds.
Qed.



Lemma formatKeymap_from_entry (keymap : bindings) (m0 m : gmap string Action)
    (s : string) (a : Action) :
  MainGo.formatKeymap_from m0 keymap = Ok m → m !! s = Some a →
  m0 !! s = Some a
  ∨ ∃ k v seqs, (k, v) ∈ keymap ∧ keySequences k = Some seqs ∧ s ∈ seqs
                ∧ MainGo.parseAction v = Ok a.
Proof.
  revert m0. induction keymap as [|[k v] rest IH]; intros m0 Hrun Hs; simpl in Hrun.
  - injection Hrun as <-. by left.
  - destruct (MainGo.parseAction v) as [a0|] eqn:Hv; [|done]. simpl in Hrun.
    destruct (keySequences k) as [seqs|] eqn:Hk.
    2:{ by rewrite (registerKey_unknown _ a0 m0 Hk) in Hrun. }
    rewrite (registerKey_sequences _ a0 m0 _ Hk) in Hrun. simpl in Hrun.
    destruct (IH _ Hrun Hs) as [Hm|(k' & v' & seqs' & Hin & Hk' & Hs' & Hv')].
    + rewrite lookup_registerAll in Hm.
      destruct (decide (s ∈ seqs)) as [Hin|]; [|by left].
      injection Hm as <-. right. exists k, v, seqs. split; [by left|done].
    + right. exists k', v', seqs'. split; [by right|done].
Qed.

Lemma formatKeymap_entry (keymap : bindings) (m : gmap string Action)
    (s : string) (a : Action) :
  MainGo.formatKeymap keymap = Ok m → m !! s = Some a →
  ∃ k v seqs, (k, v) ∈ keymap ∧ keySequences k = Some seqs ∧ s ∈ seqs
              ∧ MainGo.parseAction v = Ok a.
Proof.
  intros Hrun Hs.
  destruct (formatKeymap_from_entry keymap ∅ m s a Hrun Hs) as [H|H]; [|done].
  by rewrite lookup_empty in H.
Qed.

(** X4: every entry of the compiled mapping comes from a binding: its byte
    sequence is one of those the key literal of the binding stands for, and
    its action is the one parsed from the spec of the binding.  The
    compiler adds no other entry. *)
Theorem compiled_entries_come_from_bindings
    (keymap : bindings) (m : gmap string Action) (s : string) (a : Action) :
  MainGo.formatKeymap keymap = Ok m → m !! s = Some a →
  ∃ k v seqs, (k, v) ∈ keymap ∧ keySequences k = Some seqs ∧ s ∈ seqs
              ∧ MainGo.parseAction v = Ok a.
Proof. apply formatKeymap_entry. Qed.

Lemma compiled_entries_come_from_bindings_witness :
  ∃ k v seqs, (k, v) ∈ [("ctrl-e", "become(nvim a.json)"); ("q", "exit")]
              ∧ keySequences k = Some seqs
              ∧ String (ascii_of_nat 5) EmptyString ∈ seqs
              ∧ MainGo.parseAction v
                = Ok {| Type_ := ActionTypeBecome; Arg := "nvim a.json" |}.
Proof.
  apply (compiled_entries_come_from_bindings
           [("ctrl-e", "become(nvim a.json)"); ("q", "exit")]
           (compiled (MainGo.formatKeymap
                        [("ctrl-e", "become(nvim a.json)"); ("q", "exit")]))).
  - vm_compute; reflexivity.
  - vm_compute; reflexivity.
Defined.

(** X5: when two bindings register the same byte sequence, the one visited
    last wins: after compiling a keymap whose last visited binding is
    [(k, v)], every byte sequence of [k] is bound to the action of [v]. *)
Theorem last_visited_binding_wins
    (keymap : bindings) (k v : string) (m : gmap string Action)
    (seqs : list string) (s : string) :
  MainGo.formatKeymap (keymap ++ [(k, v)]) = Ok m →
  keySequences k = Some seqs → s ∈ seqs →
  ∃ a, MainGo.parseAction v = Ok a ∧ m !! s = Some a.
Proof.
  unfold MainGo.formatKeymap. rewrite formatKeymap_from_app.
  destruct (MainGo.formatKeymap_from ∅ keymap) as [m0|]; [|done].
  simpl. destruct (MainGo.parseAction v) as [a|]; [|done]. simpl.
  intros Hrun Hk Hs. rewrite (registerKey_sequences _ a m0 _ Hk) in Hrun.
  simpl in Hrun. injection Hrun as <-.
  exists a. split; [done|]. by rewrite lookup_registerAll, decide_True.
Qed.

Lemma last_visited_binding_wins_witness :
  ∃ a, MainGo.parseAction "become(ls)" = Ok a
       ∧ compiled (MainGo.formatKeymap ([("tab", "exit")] ++ [("ctrl-i", "become(ls)")]))
         !! GoString.TAB = Some a.
Proof.
  apply (last_visited_binding_wins [("tab", "exit")] "ctrl-i" "become(ls)"
           (compiled (MainGo.formatKeymap ([("tab", "exit")] ++ [("ctrl-i", "become(ls)")])))
           [csiU 105; GoString.TAB] GoString.TAB).
  - vm_compute; reflexivity.
  - vm_compute; reflexivity.
  - right. left.
Defined.

Lemma formatKeymap_lookup_binding (keymap : bindings) (m : gmap string Action)
    (k v : string) (seqs : list string) (s : string) (a : Action) :
  MainGo.formatKeymap keymap = Ok m → NoDup keymap.*1 → collisionFree keymap →
  (k, v) ∈ keymap → keySequences k = Some seqs → s ∈ seqs →
  MainGo.parseAction v = Ok a → m !! s = Some a.
Proof.
  intros Hrun Hnd Hfree Hin Hk Hs Hv.
  apply (formatKeymap_from_binding keymap ∅ m k v a seqs s); try done.
  intros k' v' seqs' Hin' Hne Hk' Hs'.
  by apply (Hfree k v k' v' seqs seqs' s).
Qed.

(** X6: the order in which Go visits the entries of the keymap does not
    matter when no two key literals stand for the same byte sequence: if
    one order compiles to a mapping, every other order of the same entries
    compiles to the same mapping. *)
Theorem formatKeymap_order_independent
    (keymap keymap' : bindings) (m : gmap string Action) :
  keymap ≡ₚ keymap' → NoDup keymap.*1 → collisionFree keymap →
  MainGo.formatKeymap keymap = Ok m →
  MainGo.formatKeymap keymap' = Ok m.
Proof.
  intros Hperm Hnd Hfree Hrun.
  assert (wellFormed keymap') as Hwf'.
  { unfold wellFormed. rewrite <- Hperm.
    by apply (formatKeymap_from_wellFormed keymap ∅ m). }
  destruct (formatKeymap_from_succeeds keymap' ∅ Hwf') as [m' Hrun'].
  assert (NoDup keymap'.*1) as Hnd' by (by rewrite <- Hperm).
  assert (collisionFree keymap') as Hfree'.
  { intros k v k' v' seqs seqs' s Hin Hin'. rewrite <- Hperm in Hin, Hin'.
    by apply (Hfree k v k' v'). }
  unfold MainGo.formatKeymap at 1. rewrite Hrun'. f_equal.
  apply map_eq. intros s.
  destruct (m !! s) as [a|] eqn:Hs.
  - destruct (formatKeymap_entry keymap m s a Hrun Hs)
      as (k & v & seqs & Hin & Hk & Hin_s & Hv).
    rewrite Hperm in Hin.
    by apply (formatKeymap_lookup_binding keymap' m' k v seqs s a).
  - destruct (m' !! s) as [a|] eqn:Hs'; [|done].
    destruct (formatKeymap_entry keymap' m' s a Hrun' Hs')
      as (k & v & seqs & Hin & Hk & Hin_s & Hv).
    rewrite <- Hperm in Hin.
    rewrite (formatKeymap_lookup_binding keymap m k v seqs s a) in Hs; done.
Qed.

Lemma formatKeymap_order_independent_witness :
  MainGo.formatKeymap [("q", "exit"); ("tab", "execute(date)")]
  = Ok (compiled (MainGo.formatKeymap [("tab", "execute(date)"); ("q", "exit")])).
Proof.
  apply (formatKeymap_order_independent
           [("tab", "execute(date)"); ("q", "exit")]
           [("q", "exit"); ("tab", "execute(date)")]).
  - apply perm_swap.
  - simpl. apply NoDup_cons. split; [|apply NoDup_singleton].
    intros H. apply list_elem_of_singleton in H. discriminate H.
  - intros k v k' v' seqs seqs' s Hin Hin' Hne Hk Hk' Hs Hs'.
    apply elem_of_cons in Hin as [[= -> ->]|Hin];
      [|apply list_elem_of_singleton in Hin as [= -> ->]];
      (apply elem_of_cons in Hin' as [[= -> ->]|Hin'];
       [|apply list_elem_of_singleton in Hin' as [= -> ->]]);
      try done;
      vm_compute in Hk; vm_compute in Hk';
      injection Hk as <-; injection Hk' as <-;
      apply list_elem_of_singleton in Hs as ->;
      apply list_elem_of_singleton in Hs'; discriminate Hs'.
  - vm_compute; reflexivity.
Defined.

Lemma ascii_code_bound (c : ascii) : 0 ≤ Z.of_N (N_of_ascii c) < 256.
Proof. pose proof (N_ascii_bounded c). lia. Qed.

Lemma ctrl_keySequences (c : ascii) :
  keySequences ("ctrl-" +:+ String c EmptyString)
  = Some (csiU (Z.of_N (N_of_ascii c)) ::
          if (97 <=? Z.of_N (N_of_ascii c)) && (Z.of_N (N_of_ascii c) <=? 122)
          then [String (ascii_of_N (N_of_ascii c - 96)) EmptyString]
          else []).
Proof.
  unfold keySequences. simpl.
  destruct (_ && _) eqn:E; [|done].
  apply andb_true_iff in E as [E1 E2]. apply Z.leb_le in E1, E2.
  assert (GoString.of_byte_rune (GoString.byte_wrap (Z.of_N (N_of_ascii c) - 97 + 1))
          = String (ascii_of_N (N_of_ascii c - 96)) EmptyString) as ->; [|done].
  unfold GoString.of_byte_rune, GoString.byte_wrap.
  rewrite Z.mod_small by lia.
  replace (_ <? 128) with true by (symmetry; apply Z.ltb_lt; lia).
  do 2 f_equal. lia.
Qed.

Lemma registerKey_ctrl (c : ascii) (a : Action) (m : gmap string Action) :
  MainGo.registerKey ("ctrl-" +:+ String c EmptyString) a m
  = Ok (if (97 <=? Z.of_N (N_of_ascii c)) && (Z.of_N (N_of_ascii c) <=? 122)
        then <[String (ascii_of_N (N_of_ascii c - 96)) EmptyString := a]>
               (<[csiU (Z.of_N (N_of_ascii c)) := a]> m)
        else <[csiU (Z.of_N (N_of_ascii c)) := a]> m).
Proof.
  rewrite (registerKey_sequences _ a m _ (ctrl_keySequences c)).
  by destruct (_ && _).
Qed.

(** X7: [ctrl-] followed by any single byte is a key literal.  It always
    registers the CSI-u sequence with the decimal code of the byte, and for
    a lowercase letter, and only then, also the single control byte whose
    value is the code minus 96 (the byte arithmetic never wraps and the
    conversion to a string gives one byte). *)
Theorem ctrl_key_entries (c : ascii) (a : Action) (m : gmap string Action) :
  MainGo.registerKey ("ctrl-" +:+ String c EmptyString) a m
  = Ok (if (97 <=? Z.of_N (N_of_ascii c)) && (Z.of_N (N_of_ascii c) <=? 122)
        then <[String (ascii_of_N (N_of_ascii c - 96)) EmptyString := a]>
               (<[csiU (Z.of_N (N_of_ascii c)) := a]> m)
        else <[csiU (Z.of_N (N_of_ascii c)) := a]> m).
Proof. apply registerKey_ctrl. Qed.

(** X8: binding both [ctrl-]letter and the control byte of that letter makes
    the compiled mapping depend on the order of the visit: the control byte
    ends up bound to the action of whichever of the two is visited last. *)
Theorem ctrl_collision_depends_on_order
    (c : ascii) (va vb : string) (a b : Action) :
  97 ≤ Z.of_N (N_of_ascii c) ≤ 122 →
  MainGo.parseAction va = Ok a → MainGo.parseAction vb = Ok b →
  let ctrl := "ctrl-" +:+ String c EmptyString in
  let byte := String (ascii_of_N (N_of_ascii c - 96)) EmptyString in
  ∃ m1 m2,
    MainGo.formatKeymap [(ctrl, va); (byte, vb)] = Ok m1
    ∧ MainGo.formatKeymap [(byte, vb); (ctrl, va)] = Ok m2
    ∧ m1 !! byte = Some b ∧ m2 !! byte = Some a.
Proof.
  intros Hc Hva Hvb ctrl byte.
  assert ((97 <=? Z.of_N (N_of_ascii c)) && (Z.of_N (N_of_ascii c) <=? 122) = true)
    as Hlow by (apply andb_true_iff; split; apply Z.leb_le; lia).
  assert (∀ x m, MainGo.registerKey byte x m = Ok (<[byte := x]> m)) as Hbyte
    by done.
  unfold MainGo.formatKeymap. cbn [MainGo.formatKeymap_from].
  rewrite Hva, Hvb. unfold ctrl.
  repeat first [ rewrite Hbyte | rewrite registerKey_ctrl, Hlow
               | progress cbn [mbind result_bind] ].
  eexists _, _. split; [reflexivity|]. split; [reflexivity|].
  split; apply lookup_insert_eq.
Qed.

Lemma ctrl_collision_depends_on_order_witness :
  ∃ m1 m2,
    MainGo.formatKeymap [("ctrl-" +:+ String "i" EmptyString, "exit");
                         (String (ascii_of_N (N_of_ascii "i" - 96)) EmptyString,
                          "become(ls)")] = Ok m1
    ∧ MainGo.formatKeymap [(String (ascii_of_N (N_of_ascii "i" - 96)) EmptyString,
                            "become(ls)");
                           ("ctrl-" +:+ String "i" EmptyString, "exit")] = Ok m2
    ∧ m1 !! String (ascii_of_N (N_of_ascii "i" - 96)) EmptyString
      = Some {| Type_ := ActionTypeBecome; Arg := "ls" |}
    ∧ m2 !! String (ascii_of_N (N_of_ascii "i" - 96)) EmptyString
      = Some {| Type_ := ActionTypeExit; Arg := "" |}.
Proof.
  apply (ctrl_collision_depends_on_order "i" "exit" "become(ls)"
           {| Type_ := ActionTypeExit; Arg := "" |}
           {| Type_ := ActionTypeBecome; Arg := "ls" |}).
  - vm_compute. split; discriminate.
  - vm_compute; reflexivity.
  - vm_compute; reflexivity.
Defined.

(** X29: the two variants of [formatKeymap] have the same outcome on every
    keymap, visited in the same order, and it is one of three: both return
    the same mapping, both panic on the same unknown key literal of the
    keymap, or both panic on the same slice, [v[7:6]] for a spec that is
    exactly ["become("] and [v[8:7]] for one that is exactly ["execute("]. *)
Theorem formatKeymap_variants_same_outcome (keymap : bindings) :
  MainGo.formatKeymap keymap = Part000.formatKeymap keymap
  ∧ ((∃ k, k ∈ keymap.*1
           ∧ MainGo.formatKeymap keymap = Panics (unknownKey k)
           ∧ Part000.formatKeymap keymap = Panics (unknownKey k))
     ∨ (∃ m, MainGo.formatKeymap keymap = Ok m
             ∧ Part000.formatKeymap keymap = Ok m)
     ∨ (∃ k, (k, "become(") ∈ keymap
             ∧ MainGo.formatKeymap keymap = Panics (SliceBoundsOutOfRange 7 6)
             ∧ Part000.formatKeymap keymap = Panics (SliceBoundsOutOfRange 7 6))
     ∨ (∃ k, (k, "execute(") ∈ keymap
             ∧ MainGo.formatKeymap keymap = Panics (SliceBoundsOutOfRange 8 7)
             ∧ Part000.formatKeymap keymap = Panics (SliceBoundsOutOfRange 8 7))).
Proof.
  pose proof (formatKeymap_variants_agree keymap) as Hagree.
  split; [exact Hagree|].
  destruct (formatKeymap_from_outcomes keymap ∅)
    as [(k & Hin & Hk)|[[m Hm]|[(k & Hin & Hk)|(k & Hin & Hk)]]].
  - left. exists k. split; [done|]. split; [exact Hk|].
    etrans; [symmetry; exact Hagree|exact Hk].
  - right. left. exists m. split; [exact Hm|].
    etrans; [symmetry; exact Hagree|exact Hm].
  - right. right. left. exists k. split; [done|]. split; [exact Hk|].
    etrans; [symmetry; exact Hagree|exact Hk].
  - right. right. right. exists k. split; [done|]. split; [exact Hk|].
    etrans; [symmetry; exact Hagree|exact Hk].
Qed.

(** ** More on the input reader and the output goroutine *)

(** X9: in debug mode the reader only logs: whatever is read, and whatever
    the keymap and the state of the child, no action is enqueued and
    nothing is written to the PTY master. *)
Theorem reader_debug_only_logs (keymap : gmap string Action) (turns : list Turn) :
  Forall (λ e, enqueued e = [] ∧ forwarded e = []) (reader true keymap turns).
Proof.
  induction turns as [|t rest IH]; simpl; [constructor|].
  destruct (readResult t) as [received|]; [|constructor].
  unfold readerIteration. by constructor.
Qed.

(** X10: once [childExitChan] is nil the reader never writes to the PTY
    master again: with debug mode off every read, up to the first failed
    read, is turned into exactly one action, the one bound to the bytes
    read or, when they are not a key of the keymap, Exit. *)
Theorem reader_after_exit_never_writes
    (keymap : gmap string Action) (turns : list Turn) :
  Forall (λ t, exitChanNow t = chan_nil) turns →
  reader false keymap turns
    = (λ r, SendAction (default {| Type_ := ActionTypeExit; Arg := "" |}
                                (keymap !! r)))
        <$> readsUntilError turns
  ∧ Forall (λ e, forwarded e = []) (reader false keymap turns).
Proof.
  induction 1 as [|t rest Ht _ [IH1 IH2]]; [by split|].
  cbn [reader readsUntilError].
  destruct (readResult t) as [received|]; [|by split].
  rewrite Ht. unfold readerIteration.
  destruct (keymap !! received) as [a|] eqn:Hbound; csimpl; rewrite Hbound;
    (split; [by rewrite IH1|by constructor]).
Qed.

Lemma reader_after_exit_never_writes_witness :
  reader false (compiled (MainGo.formatKeymap [("q", "become(ls)")]))
    [{| readResult := Some "x"; exitChanNow := chan_nil; writeFails := true |};
     {| readResult := Some "q"; exitChanNow := chan_nil; writeFails := false |}]
    = (λ r, SendAction (default {| Type_ := ActionTypeExit; Arg := "" |}
                                (compiled (MainGo.formatKeymap [("q", "become(ls)")])
                                   !! r)))
        <$> readsUntilError
              [{| readResult := Some "x"; exitChanNow := chan_nil; writeFails := true |};
               {| readResult := Some "q"; exitChanNow := chan_nil; writeFails := false |}]
  ∧ Forall (λ e, forwarded e = [])
      (reader false (compiled (MainGo.formatKeymap [("q", "become(ls)")]))
         [{| readResult := Some "x"; exitChanNow := chan_nil; writeFails := true |};
          {| readResult := Some "q"; exitChanNow := chan_nil; writeFails := false |}]).
Proof.
  apply (reader_after_exit_never_writes
           (compiled (MainGo.formatKeymap [("q", "become(ls)")]))).
  repeat constructor.
Defined.

Lemma reader_quiet_cons (keymap : gmap string Action) (r : string)
    (reads : list string) :
  reader false keymap (quietTurns (r :: reads))
  = match keymap !! r with
    | Some a => SendAction a
    | None => WritePty r
    end :: reader false keymap (quietTurns reads).
Proof.
  cbn [quietTurns fmap list_fmap reader readResult exitChanNow writeFails].
  unfold readerIteration. by destruct (keymap !! r).
Qed.

Lemma reader_quiet_forwarded (keymap : gmap string Action) (reads : list string) :
  concat (forwarded <$> reader false keymap (quietTurns reads))
  = omap (λ r, match keymap !! r with None => Some r | Some _ => None end) reads.
Proof.
  induction reads as [|r reads IH]; [done|].
  rewrite reader_quiet_cons. csimpl. destruct (keymap !! r); csimpl; by rewrite IH.
Qed.

(** X11: while the child runs and no read or write fails, with debug mode
    off, the reader handles every read once and in order: the reads that
    are not keys of the keymap are written to the PTY master unchanged, the
    others are replaced by their actions, and nothing is lost, repeated or
    reordered.  With an empty keymap everything read is forwarded. *)
Theorem reader_forwards_unmapped_in_order
    (keymap : gmap string Action) (reads : list string) :
  concat (forwarded <$> reader false keymap (quietTurns reads))
    = omap (λ r, match keymap !! r with None => Some r | Some _ => None end) reads
  ∧ concat (enqueued <$> reader false keymap (quietTurns reads))
    = omap (λ r, keymap !! r) reads
  ∧ length (reader false keymap (quietTurns reads)) = length reads
  ∧ concat (forwarded <$> reader false ∅ (quietTurns reads)) = reads.
Proof.
  split; [apply reader_quiet_forwarded|]. split; [|split].
  - induction reads as [|r reads IH]; [done|].
    rewrite reader_quiet_cons. csimpl. destruct (keymap !! r); csimpl; by rewrite IH.
  - induction reads as [|r reads IH]; [done|].
    rewrite reader_quiet_cons. csimpl. by rewrite IH.
  - rewrite reader_quiet_forwarded. induction reads as [|r reads IH]; [done|].
    csimpl. rewrite lookup_empty. by rewrite IH.
Qed.

(** X12: the reader ends at the first failed [tty.Read]: what is typed
    after it is never handled. *)
Theorem reader_stops_at_read_error
    (isDebug : bool) (keymap : gmap string Action)
    (before after : list Turn) (c : chanref) (w : bool) :
  reader isDebug keymap
    (before ++ {| readResult := None; exitChanNow := c; writeFails := w |} :: after)
  = reader isDebug keymap before.
Proof.
  induction before as [|t rest IH]; simpl; [done|].
  by rewrite IH.
Qed.

(** X13: the output goroutine writes to standard output the chunks read
    from the PTY master, unchanged and in order, up to the first failed
    read, and nothing after it. *)
Theorem copyOutput_copies_until_read_error
    (chunks : list string) (after : list (option string)) :
  copyOutput (Some <$> chunks) = chunks
  ∧ copyOutput ((Some <$> chunks) ++ None :: after) = chunks.
Proof.
  split; induction chunks as [|c chunks IH]; csimpl; by rewrite ?IH.
Qed.

(** ** More on the shutdown escalator *)

Lemma withoutLogs_app (l1 l2 : list Effect) :
  withoutLogs (l1 ++ l2) = withoutLogs l1 ++ withoutLogs l2.
Proof. apply omap_app. Qed.

Lemma withoutLogs_logErr (prefix : string) (err : option string) :
  withoutLogs (logErr prefix err) = [].
Proof. by destruct err. Qed.

Lemma withoutLogs_graceLoop (o : Oracle) (attempt n : nat) :
  withoutLogs (graceLoop o attempt n)
  = concat (replicate n [TimerFired; Signal SIGKILL]).
Proof.
  revert attempt. induction n as [|n IH]; intros attempt; [done|].
  cbn [graceLoop replicate concat].
  rewrite !withoutLogs_app, withoutLogs_logErr, IH. done.
Qed.

(** X14: on a child whose exit has not been observed, [stopChild] sends
    SIGTERM once, first; it sends SIGKILL once for every two-second timer
    that fires before the exit of the child arrives, each time right after
    the timer, so never before a full grace period and not at all when the
    child exits in time; it keeps killing every two seconds until the exit
    arrives, and leaves [childExitChan] nil. *)
Theorem stopChild_escalation (o : Oracle) :
  withoutLogs (stopChild o chan_open).2
    = Signal SIGTERM :: concat (replicate (graceTimers o) [TimerFired; Signal SIGKILL])
  ∧ (stopChild o chan_open).1 = chan_nil.
Proof.
  split; [|done]. simpl.
  by rewrite withoutLogs_app, withoutLogs_logErr, withoutLogs_graceLoop.
Qed.

(** ** More on the event loop *)

Lemma signalsOf_app (l1 l2 : list Effect) :
  signalsOf (l1 ++ l2) = signalsOf l1 ++ signalsOf l2.
Proof. apply omap_app. Qed.

Lemma signalsOf_logErr (prefix : string) (err : option string) :
  signalsOf (logErr prefix err) = [].
Proof. by destruct err. Qed.

Lemma signalsOf_graceLoop (o : Oracle) (attempt n : nat) :
  signalsOf (graceLoop o attempt n) = replicate n SIGKILL.
Proof.
  revert attempt. induction n as [|n IH]; intros attempt; [done|].
  cbn [graceLoop replicate].
  rewrite !signalsOf_app, signalsOf_logErr, IH. done.
Qed.

Lemma signalsOf_stopChild (o : Oracle) (c : chanref) :
  signalsOf (stopChild o c).2
  = match c with
    | chan_nil => []
    | chan_open => SIGTERM :: replicate (graceTimers o) SIGKILL
    end.
Proof.
  destruct c; [|done]. simpl.
  by rewrite signalsOf_app, signalsOf_logErr, signalsOf_graceLoop.
Qed.

Lemma loopIteration_signals (hold : bool) (stdinFile : option string)
    (o : Oracle) (c : chanref) (ev : SelectCase) (l : list Effect) (n : Next) :
  MainGo.loopIteration hold stdinFile o c ev = Some (l, n) →
  (∀ c', n = Continue c' → signalsOf l = [] ∧ (c = chan_nil → c' = chan_nil))
  ∧ (signalsOf l = []
     ∨ (c = chan_open ∧ signalsOf l = SIGTERM :: replicate (graceTimers o) SIGKILL
        ∧ ∃ t, n = Terminate t)).
Proof.
  pose proof (signalsOf_stopChild o c) as Hstop.
  unfold MainGo.loopIteration. destruct ev as [err| |action].
  - destruct c; [|done]. destruct hold; simpl; intros [= <- <-].
    + rewrite signalsOf_app, signalsOf_logErr. split; [|by left].
      by intros c' [= <-].
    + rewrite signalsOf_logErr. split; [done|by left].
  - intros [= <- <-]. simpl. rewrite signalsOf_logErr.
    split; [|by left]. by intros c' [= <-].
  - destruct (String.eqb (Type_ action) ActionTypeExit).
    { destruct (stopChild o c) as [c0 l0]. simpl in Hstop.
      intros [= <- <-]. split; [done|].
      destruct c; [right|left]; eauto. }
    destruct (String.eqb (Type_ action) ActionTypeBecome).
    { destruct (stopChild o c) as [c0 l0]. simpl in Hstop.
      destruct (MainGo.stdinFileName stdinFile); intros [= <- <-];
        (split; [done|]); (destruct c; [right|left]; eauto). }
    destruct (String.eqb (Type_ action) ActionTypeExecute).
    { destruct (MainGo.stdinFileName stdinFile); intros [= <- <-].
      - simpl. rewrite signalsOf_logErr. split; [|by left]. by intros c' [= <-].
      - split; [done|by left]. }
    intros [= <- <-]. split; [|by left]. by intros c' [= <-].
Qed.

(** X15: after the exit of the child has been observed ([childExitChan]
    nil), the event loop never signals the child, whatever events follow,
    and [childExitChan] stays nil. *)
Theorem eventLoop_after_exit_sends_no_signal
    (hold : bool) (stdinFile : option string)
    (events : list (Oracle * SelectCase)) (l : list Effect) (n : Next) :
  MainGo.eventLoop hold stdinFile events chan_nil = Some (l, n) →
  signalsOf l = [] ∧ ∀ c, n = Continue c → c = chan_nil.
Proof.
  revert l n. induction events as [|[o ev] rest IH]; intros l n; simpl.
  - intros [= <- <-]. split; [done|]. by intros c [= <-].
  - destruct (MainGo.loopIteration hold stdinFile o chan_nil ev)
      as [[l1 [c1|t]]|] eqn:Hit; [| |done].
    + destruct (loopIteration_signals _ _ _ _ _ _ _ Hit) as [Hcont _].
      destruct (Hcont c1 eq_refl) as [Hl1 Hc1]. rewrite (Hc1 eq_refl).
      destruct (MainGo.eventLoop hold stdinFile rest chan_nil)
        as [[l2 n2]|]; [|done].
      intros [= <- <-]. destruct (IH l2 n2 eq_refl) as [Hl2 Hn2].
      split; [|done]. by rewrite signalsOf_app, Hl1, Hl2.
    + intros [= <- <-].
      destruct (loopIteration_signals _ _ _ _ _ _ _ Hit) as [_ [H|(H & _)]];
        [|done].
      split; [done|]. done.
Qed.

Lemma eventLoop_after_exit_sends_no_signal_witness :
  signalsOf [InheritSize] = []
  ∧ ∀ c, Terminate (Returns 0) = Continue c → c = chan_nil.
Proof.
  apply (eventLoop_after_exit_sends_no_signal true None
           [(quietOracle, RecvWinch);
            (quietOracle, RecvAction {| Type_ := ActionTypeExit; Arg := "" |})]
           [InheritSize] (Terminate (Returns 0))).
  reflexivity.
Defined.

(** X16: in any run of the event loop the child is signalled in the last
    iteration only: as long as the loop goes on no signal has been sent,
    and a run that ends sends either nothing or one SIGTERM followed by
    SIGKILLs, never a second SIGTERM. *)
Theorem eventLoop_signals_only_when_ending
    (hold : bool) (stdinFile : option string)
    (events : list (Oracle * SelectCase)) (c : chanref)
    (l : list Effect) (n : Next) :
  MainGo.eventLoop hold stdinFile events c = Some (l, n) →
  (∀ c', n = Continue c' → signalsOf l = [])
  ∧ ∃ k, signalsOf l = [] ∨ signalsOf l = SIGTERM :: replicate k SIGKILL.
Proof.
  revert c l n. induction events as [|[o ev] rest IH]; intros c l n; simpl.
  - intros [= <- <-]. split; [done|]. exists 0%nat. by left.
  - destruct (MainGo.loopIteration hold stdinFile o c ev)
      as [[l1 [c1|t]]|] eqn:Hit; [| |done].
    + destruct (loopIteration_signals _ _ _ _ _ _ _ Hit) as [Hcont _].
      destruct (Hcont c1 eq_refl) as [Hl1 _].
      destruct (MainGo.eventLoop hold stdinFile rest c1)
        as [[l2 n2]|] eqn:Hrest; [|done].
      intros [= <- <-]. destruct (IH c1 l2 n2 Hrest) as [Hc2 Hk2].
      rewrite signalsOf_app, Hl1. done.
    + intros [= <- <-].
      destruct (loopIteration_signals _ _ _ _ _ _ _ Hit) as [_ [H|(_ & H & _)]].
      * split; [done|]. exists 0%nat. by left.
      * split; [done|]. exists (graceTimers o). by right.
Qed.

Lemma eventLoop_signals_only_when_ending_witness :
  (∀ c', Terminate (Returns 0) = Continue c' →
         signalsOf [InheritSize; Signal SIGTERM] = [])
  ∧ ∃ k, signalsOf [InheritSize; Signal SIGTERM] = []
         ∨ signalsOf [InheritSize; Signal SIGTERM] = SIGTERM :: replicate k SIGKILL.
Proof.
  apply (eventLoop_signals_only_when_ending false None
           [(quietOracle, RecvWinch);
            (quietOracle, RecvAction {| Type_ := ActionTypeExit; Arg := "" |})]
           chan_open [InheritSize; Signal SIGTERM] (Terminate (Returns 0))).
  reflexivity.
Defined.

(** X17: in main.go, when standard input is a terminal ([stdinFile] is
    nil), dispatching an Execute or a Become action panics on
    [stdinFile.Name()]: Execute before any command is run, Become after
    the child has been stopped.  The panic is in the main goroutine, so
    the terminal is restored, and the exit status is 2. *)
Theorem actions_panic_without_stdin_file
    (hold : bool) (o : Oracle) (c : chanref) (arg : string) :
  MainGo.loopIteration hold None o c
      (RecvAction {| Type_ := ActionTypeExecute; Arg := arg |})
    = Some ([], Terminate (MainPanic NilPointerDereference))
  ∧ MainGo.loopIteration hold None o c
      (RecvAction {| Type_ := ActionTypeBecome; Arg := arg |})
    = Some ((stopChild o c).2, Terminate (MainPanic NilPointerDereference))
  ∧ MainGo.exitStatus (MainPanic NilPointerDereference) = Some 2
  ∧ RestoreTerminal ∈ MainGo.atExit None (MainPanic NilPointerDereference).
Proof.
  split; [done|]. split; [by destruct c|]. split; [done|].
  by apply restore_iff_deferred.
Qed.

(** X18: in main.go every way out of the event loop other than a
    successful [syscall.Exec] runs the deferred calls: the terminal is
    restored and the PTY master closed, and the exit status is 0 or 2. *)
Theorem main_loop_exit_restores_unless_replaced
    (hold : bool) (stdinFile : option string) (o : Oracle) (c : chanref)
    (ev : SelectCase) (l : list Effect) (t : Termination) :
  MainGo.loopIteration hold stdinFile o c ev = Some (l, Terminate t) →
  (∃ argv, t = ExecReplaced argv)
  ∨ (RestoreTerminal ∈ MainGo.atExit stdinFile t
     ∧ ClosePtmx ∈ MainGo.atExit stdinFile t
     ∧ (MainGo.exitStatus t = Some 0 ∨ MainGo.exitStatus t = Some 2)).
Proof.
  assert (∀ t', runsDeferred t' = true →
                RestoreTerminal ∈ MainGo.atExit stdinFile t'
                ∧ ClosePtmx ∈ MainGo.atExit stdinFile t') as Hdef.
  { intros t' Ht'. unfold MainGo.atExit, MainGo.deferred. rewrite Ht'.
    split; [by left|right; by left]. }
  unfold MainGo.loopIteration. destruct ev as [err| |action].
  - destruct c; [|done]. destruct hold; [done|]. intros [= <- <-].
    right. destruct (Hdef (Returns 0) eq_refl). eauto.
  - done.
  - destruct (String.eqb (Type_ action) ActionTypeExit).
    { destruct (stopChild o c). intros [= <- <-].
      right. destruct (Hdef (Returns 0) eq_refl). eauto. }
    destruct (String.eqb (Type_ action) ActionTypeBecome).
    { destruct (stopChild o c).
      destruct (MainGo.stdinFileName stdinFile) as [name|p]; intros [= <- <-].
      - unfold MainGo.execSyscall.
        destruct (lookPath o) as [binary|e];
          [destruct (execErr o)|]; eauto;
          right; destruct (Hdef (MainPanic (PanicError e)) eq_refl)
          || destruct (Hdef (MainPanic (PanicError s)) eq_refl); eauto.
      - right. destruct (Hdef (MainPanic p) eq_refl). eauto. }
    destruct (String.eqb (Type_ action) ActionTypeExecute); [|done].
    destruct (MainGo.stdinFileName stdinFile) as [name|p]; intros [= <- <-].
    right. destruct (Hdef (MainPanic p) eq_refl). eauto.
Qed.

Lemma main_loop_exit_restores_unless_replaced_witness :
  (∃ argv, MainPanic (PanicError "exec format error") = ExecReplaced argv)
  ∨ (RestoreTerminal
       ∈ MainGo.atExit (Some "/tmp/keywrap-stdin42")
           (MainPanic (PanicError "exec format error"))
     ∧ ClosePtmx
         ∈ MainGo.atExit (Some "/tmp/keywrap-stdin42")
             (MainPanic (PanicError "exec format error"))
     ∧ (MainGo.exitStatus (MainPanic (PanicError "exec format error")) = Some 0
        ∨ MainGo.exitStatus (MainPanic (PanicError "exec format error")) = Some 2)).
Proof.
  apply (main_loop_exit_restores_unless_replaced false
           (Some "/tmp/keywrap-stdin42")
           {| sigtermErr := None; graceTimers := 0; killErr := λ _, None;
              resizeErr := None; lookPath := inl "/usr/bin/bash";
              execErr := Some "exec format error"; runErr := None |}
           chan_open
           (RecvAction {| Type_ := ActionTypeBecome; Arg := "echo hi" |})
           [Signal SIGTERM]).
  reflexivity.
Defined.

(** X19: when the replacement of the process image fails ([exec.LookPath]
    or [syscall.Exec] returns an error), the child has already been
    stopped.  main.go then panics in the main goroutine: the deferred calls
    run and the status is 2.  The second variant calls [log.Fatal]: the
    status is 1 and no deferred call runs, so the terminal stays raw. *)
Theorem failed_exec_in_both_variants
    (hold : bool) (name : string) (o : Oracle) (c : chanref) (arg : string) :
  execFails o = true →
  (∃ e, MainGo.loopIteration hold (Some name) o c
          (RecvAction {| Type_ := ActionTypeBecome; Arg := arg |})
        = Some ((stopChild o c).2, Terminate (MainPanic (PanicError e)))
        ∧ RestoreTerminal ∈ MainGo.atExit (Some name) (MainPanic (PanicError e))
        ∧ MainGo.exitStatus (MainPanic (PanicError e)) = Some 2)
  ∧ Part000.loopIteration hold o c
      (RecvAction {| Type_ := ActionTypeBecome; Arg := arg |})
    = Some ((stopChild o c).2, Terminate (OsExit 1))
  ∧ Part000.atExit (OsExit 1) = []
  ∧ Part000.exitStatus (OsExit 1) = Some 1.
Proof.
  unfold execFails. intros Hfail.
  assert (∀ e, RestoreTerminal ∈ MainGo.atExit (Some name) (MainPanic (PanicError e)))
    as Hrestore by (intros e; by apply restore_iff_deferred).
  unfold MainGo.loopIteration, Part000.loopIteration,
    MainGo.execSyscall, Part000.execSyscall. simpl.
  destruct (stopChild o c) as [c0 l0]. simpl.
  destruct (lookPath o) as [binary|e].
  - destruct (execErr o) as [e|]; [|done].
    split; [|done]. exists e. eauto.
  - split; [|done]. exists e. eauto.
Qed.

Lemma failed_exec_in_both_variants_witness :
  let o := {| sigtermErr := None; graceTimers := 0; killErr := λ _, None;
              resizeErr := None; lookPath := inr "executable file not found in $PATH";
              execErr := None; runErr := None |} in
  (∃ e, MainGo.loopIteration false (Some "/tmp/keywrap-stdin42") o chan_open
          (RecvAction {| Type_ := ActionTypeBecome; Arg := "echo hi" |})
        = Some ((stopChild o chan_open).2, Terminate (MainPanic (PanicError e)))
        ∧ RestoreTerminal
            ∈ MainGo.atExit (Some "/tmp/keywrap-stdin42") (MainPanic (PanicError e))
        ∧ MainGo.exitStatus (MainPanic (PanicError e)) = Some 2)
  ∧ Part000.loopIteration false o chan_open
      (RecvAction {| Type_ := ActionTypeBecome; Arg := "echo hi" |})
    = Some ((stopChild o chan_open).2, Terminate (OsExit 1))
  ∧ Part000.atExit (OsExit 1) = []
  ∧ Part000.exitStatus (OsExit 1) = Some 1.
Proof.
  apply (failed_exec_in_both_variants false "/tmp/keywrap-stdin42"
           {| sigtermErr := None; graceTimers := 0; killErr := λ _, None;
              resizeErr := None; lookPath := inr "executable file not found in $PATH";
              execErr := None; runErr := None |}
           chan_open "echo hi").
  reflexivity.
Defined.

(** ** The placeholder of the collected standard input *)

Lemma prefix_split (p s : string) :
  String.prefix p s = true → ∃ t, s = p +:+ t.
Proof.
  revert s. induction p as [|a p IH]; intros s H.
  - by exists s.
  - destruct s as [|b s]; simpl in H; [discriminate|].
    destruct (ascii_dec a b) as [->|]; [|discriminate].
    destruct (IH s H) as [t ->]. by exists t.
Qed.

Lemma replace_from_skip (p old new s : string) :
  GoString.replace_from (String.length p) old new (p +:+ s)
  = GoString.replace_from 0 old new s.
Proof.
  induction p as [|b p IH]; [done|]. exact IH.
Qed.

Lemma ReplaceAll_absent (old new s : string) :
  ¬ occursIn old s → GoString.ReplaceAll s old new = s.
Proof.
  unfold GoString.ReplaceAll.
  induction s as [|c s IH]; intros Hno; [done|].
  cbn [GoString.replace_from].
  destruct (String.prefix old (String c s)) eqn:Hp.
  { exfalso. apply Hno. destruct (prefix_split _ _ Hp) as [t Ht].
    exists EmptyString, t. exact Ht. }
  f_equal. apply IH. intros (before & after & ->).
  apply Hno. by exists (String c before), after.
Qed.

(** X20: [strings.ReplaceAll] as the program uses it.  A string in which
    [old] does not occur is returned unchanged; an occurrence of [old] at
    the head of the string becomes [new], and the replacement goes on
    after that occurrence, not inside it. *)
Theorem ReplaceAll_cases (old new s : string) :
  (¬ occursIn old s → GoString.ReplaceAll s old new = s)
  ∧ (old ≠ EmptyString →
     GoString.ReplaceAll (old +:+ s) old new
     = new +:+ GoString.ReplaceAll s old new).
Proof.
  split; [apply ReplaceAll_absent|]. unfold GoString.ReplaceAll.
  intros Hold. destruct old as [|a old]; [done|].
  {
    change (String a old +:+ s) with (String a (old +:+ s)).
    cbn [GoString.replace_from].
    change (String a (old +:+ s)) with (String a old +:+ s).
    rewrite prefix_append. f_equal.
    replace (String.length (String a old) - 1)%nat with (String.length old)
      by (simpl; lia).
    apply replace_from_skip. }
Qed.

Lemma ReplaceAll_cases_witness :
  GoString.ReplaceAll " | wc" "__stdin_file__" "/tmp/f" = " | wc"
  ∧ GoString.ReplaceAll ("__stdin_file__" +:+ " | wc") "__stdin_file__" "/tmp/f"
    = "/tmp/f" +:+ GoString.ReplaceAll " | wc" "__stdin_file__" "/tmp/f".
Proof.
  destruct (ReplaceAll_cases "__stdin_file__" "/tmp/f" " | wc") as [Habsent Hhead].
  split.
  - apply Habsent. intros (before & after & H).
    apply (f_equal String.length) in H. rewrite !length_append in H.
    simpl in H. lia.
  - apply Hhead. discriminate.
Defined.

Lemma loopIteration_variants_agree
    (hold : bool) (name : string) (o : Oracle) (c : chanref) (ev : SelectCase) :
  execFails o = false →
  (∀ a, ev = RecvAction a → ¬ occursIn "__stdin_file__" (Arg a)) →
  MainGo.loopIteration hold (Some name) o c ev = Part000.loopIteration hold o c ev.
Proof.
  intros Hexec Hfree. destruct ev as [err| |a]; [done|done|].
  pose proof (ReplaceAll_absent "__stdin_file__" name (Arg a)
                (Hfree a eq_refl)) as Hsame.
  unfold MainGo.loopIteration, Part000.loopIteration. simpl. rewrite Hsame.
  unfold MainGo.execSyscall, Part000.execSyscall.
  unfold execFails in Hexec.
  destruct (lookPath o); [|done]. by destruct (execErr o).
Qed.

(** X21: with standard input collected into a file, the event loops of the
    two variants do the same thing on the same events, as long as no
    action argument contains the placeholder [__stdin_file__] and the
    replacement of the process image does not fail. *)
Theorem eventLoop_variants_agree
    (hold : bool) (name : string) (events : list (Oracle * SelectCase))
    (c : chanref) :
  Forall (λ oe, execFails oe.1 = false
                ∧ ∀ a, oe.2 = RecvAction a → ¬ occursIn "__stdin_file__" (Arg a))
         events →
  MainGo.eventLoop hold (Some name) events c = Part000.eventLoop hold events c.
Proof.
  intros Hall. revert c.
  induction Hall as [|[o ev] rest [Hexec Hfree] _ IH]; intros c; [done|].
  cbn [MainGo.eventLoop Part000.eventLoop].
  rewrite (loopIteration_variants_agree hold name o c ev Hexec Hfree).
  destruct (Part000.loopIteration hold o c ev) as [[l [c'|t]]|]; [|done|done].
  by rewrite IH.
Qed.

Lemma eventLoop_variants_agree_witness :
  MainGo.eventLoop true (Some "/tmp/keywrap-stdin42")
    [(quietOracle, RecvAction {| Type_ := ActionTypeExecute; Arg := "date" |});
     (quietOracle, RecvChildExit None)] chan_open
  = Part000.eventLoop true
      [(quietOracle, RecvAction {| Type_ := ActionTypeExecute; Arg := "date" |});
       (quietOracle, RecvChildExit None)] chan_open.
Proof.
  apply (eventLoop_variants_agree true "/tmp/keywrap-stdin42").
  repeat constructor; try done; simpl.
  intros a [= <-]. intros (before & after & H).
  destruct before as [|b0 [|b1 [|b2 [|b3 [|b4 ?]]]]]; discriminate H.
Defined.

(** ** The command line *)

Lemma cut_spelled (k v : string) :
  GoString.hasByte ":" k = false →
  GoString.cut (k +:+ ":" +:+ v) = Some (k, v).
Proof.
  induction k as [|c k IH]; intros H; [done|].
  simpl in H. apply orb_false_iff in H as [Hc Hk].
  simpl. rewrite Hc. by rewrite (IH Hk).
Qed.

Lemma cut_none (s : string) :
  GoString.hasByte ":" s = false → GoString.cut s = None.
Proof.
  induction s as [|c s IH]; intros H; [done|].
  simpl in H. apply orb_false_iff in H as [Hc Hs].
  simpl. rewrite Hc. by rewrite (IH Hs).
Qed.

Lemma cut_some (s before after : string) :
  GoString.cut s = Some (before, after) →
  GoString.hasByte ":" before = false ∧ s = before +:+ ":" +:+ after.
Proof.
  revert before. induction s as [|c s IH]; intros before H; [done|].
  simpl in H. destruct (Ascii.eqb c ":") eqn:Hc.
  - injection H as <- <-. apply Ascii.eqb_eq in Hc as ->. done.
  - destruct (GoString.cut s) as [[b a]|]; [|done].
    injection H as <- <-. destruct (IH b eq_refl) as [Hb ->].
    split; [|done]. simpl. by rewrite Hc.
Qed.

Lemma parseArgs_options (trim : string → string) (opts : list CliOption)
    (tail : list string) (parsed : MainGo.ParsedFlag) :
  Forall bindKeyHasNoColon opts →
  MainGo.parseArgs trim (concat (spell <$> opts) ++ tail) parsed
  = MainGo.parseArgs trim tail (afterOptions trim opts parsed).
Proof.
  intros Hall. revert parsed.
  induction Hall as [|opt opts Hopt _ IH]; intros parsed.
  - by destruct parsed.
  - destruct opt as [k v|short|text]; csimpl.
    + unfold GoString.SplitN2. rewrite (cut_spelled k v Hopt). by rewrite IH.
    + destruct short; simpl; by rewrite IH.
    + by rewrite IH.
Qed.

(** X22: the command line read back.  A list of [--bind key:spec],
    [--hold]/[-h] and [--input text] options, with no colon inside the
    keys, followed by [--] and a command, is parsed into that command, a
    keymap holding the trimmed spec of the last binding of each key,
    whether hold was asked for, and the last input text.  The separator
    can be left out when the command does not begin with an option word,
    and everything after the first word of the command, option words
    included, belongs to the command. *)
Theorem parseFlag_reads_options_back
    (trim : string → string) (opts : list CliOption) (c : string)
    (rest : list string) :
  Forall bindKeyHasNoColon opts →
  MainGo.parseFlag trim (concat (spell <$> opts) ++ "--" :: c :: rest)
    = inl {| MainGo.Cmd := c :: rest;
             MainGo.Keymap := optKeymap trim opts ∅;
             MainGo.Hold := optHold opts false;
             MainGo.Input := optInput opts "" |}
  ∧ (optionWord c = false →
     MainGo.parseFlag trim (concat (spell <$> opts) ++ c :: rest)
     = inl {| MainGo.Cmd := c :: rest;
              MainGo.Keymap := optKeymap trim opts ∅;
              MainGo.Hold := optHold opts false;
              MainGo.Input := optInput opts "" |}).
Proof.
  intros Hall. unfold MainGo.parseFlag. rewrite !parseArgs_options by done.
  split; [done|].
  unfold optionWord. intros Hc.
  repeat (apply orb_false_iff in Hc as [Hc ?]).
  cbn [MainGo.parseArgs].
  replace (String.eqb c "--") with false.
  replace (String.eqb c "--bind") with false.
  replace (String.eqb c "--hold") with false.
  replace (String.eqb c "-h") with false.
  replace (String.eqb c "--input") with false.
  done.
Qed.

Lemma parseFlag_reads_options_back_witness :
  MainGo.parseFlag id
      (concat (spell <$> [OptBind "ctrl-e" "become(nvim a.json)"; OptHold true])
       ++ "--" :: "bat" :: ["a.json"; "--hold"])
    = inl {| MainGo.Cmd := "bat" :: ["a.json"; "--hold"];
             MainGo.Keymap :=
               optKeymap id [OptBind "ctrl-e" "become(nvim a.json)"; OptHold true] ∅;
             MainGo.Hold :=
               optHold [OptBind "ctrl-e" "become(nvim a.json)"; OptHold true] false;
             MainGo.Input :=
               optInput [OptBind "ctrl-e" "become(nvim a.json)"; OptHold true] "" |}
  ∧ (optionWord "bat" = false →
     MainGo.parseFlag id
       (concat (spell <$> [OptBind "ctrl-e" "become(nvim a.json)"; OptHold true])
        ++ "bat" :: ["a.json"; "--hold"])
     = inl {| MainGo.Cmd := "bat" :: ["a.json"; "--hold"];
              MainGo.Keymap :=
                optKeymap id [OptBind "ctrl-e" "become(nvim a.json)"; OptHold true] ∅;
              MainGo.Hold :=
                optHold [OptBind "ctrl-e" "become(nvim a.json)"; OptHold true] false;
              MainGo.Input :=
                optInput [OptBind "ctrl-e" "become(nvim a.json)"; OptHold true] "" |}).
Proof.
  apply (parseFlag_reads_options_back id
           [OptBind "ctrl-e" "become(nvim a.json)"; OptHold true]
           "bat" ["a.json"; "--hold"]).
  repeat constructor.
Defined.

(** X23: what [parseFlag] does with a malformed command line, after any
    options.  A last [--bind] or [--input] without its value panics on
    [args[1]] (index out of range) instead of printing the usage; a
    [--bind] whose value has no colon, a command line without a command,
    and one that ends with [--] print the usage and exit with status 1. *)
Theorem parseFlag_malformed_tails
    (trim : string → string) (opts : list CliOption) :
  Forall bindKeyHasNoColon opts →
  MainGo.parseFlag trim (concat (spell <$> opts) ++ ["--bind"])
    = inr (MainPanic (IndexOutOfRange 1))
  ∧ MainGo.parseFlag trim (concat (spell <$> opts) ++ ["--input"])
    = inr (MainPanic (IndexOutOfRange 1))
  ∧ (∀ kv tail, GoString.hasByte ":" kv = false →
       MainGo.parseFlag trim (concat (spell <$> opts) ++ "--bind" :: kv :: tail)
       = inr (OsExit 1))
  ∧ MainGo.parseFlag trim (concat (spell <$> opts)) = inr (OsExit 1)
  ∧ MainGo.parseFlag trim (concat (spell <$> opts) ++ ["--"]) = inr (OsExit 1).
Proof.
  intros Hall. unfold MainGo.parseFlag.
  rewrite !parseArgs_options by done.
  split; [done|]. split; [done|]. split; [|split].
  - intros kv tail Hkv. rewrite parseArgs_options by done.
    cbn [MainGo.parseArgs]. simpl String.eqb. cbv iota.
    unfold GoString.SplitN2. by rewrite (cut_none kv Hkv).
  - rewrite <- (app_nil_r (concat _)). by rewrite parseArgs_options.
  - done.
Qed.

Lemma parseFlag_malformed_tails_witness :
  MainGo.parseFlag id (concat (spell <$> [OptHold false]) ++ ["--bind"])
    = inr (MainPanic (IndexOutOfRange 1))
  ∧ MainGo.parseFlag id (concat (spell <$> [OptHold false]) ++ ["--input"])
    = inr (MainPanic (IndexOutOfRange 1))
  ∧ (∀ kv tail, GoString.hasByte ":" kv = false →
       MainGo.parseFlag id (concat (spell <$> [OptHold false]) ++ "--bind" :: kv :: tail)
       = inr (OsExit 1))
  ∧ MainGo.parseFlag id (concat (spell <$> [OptHold false])) = inr (OsExit 1)
  ∧ MainGo.parseFlag id (concat (spell <$> [OptHold false]) ++ ["--"]) = inr (OsExit 1).
Proof.
  apply (parseFlag_malformed_tails id [OptHold false]).
  repeat constructor.
Defined.

Lemma parseArgs_keymap_invariant (trim : string → string)
    (P : gmap string string → Prop) :
  (∀ m kv k v, P m → GoString.cut kv = Some (k, v) → P (<[k := trim v]> m)) →
  ∀ n args parsed p,
    (length args ≤ n)%nat → P (MainGo.Keymap parsed) →
    MainGo.parseArgs trim args parsed = inl p → P (MainGo.Keymap p).
Proof.
  intros Hins. induction n as [|n IH]; intros args parsed p Hlen HP Hrun.
  { destruct args; [|simpl in Hlen; lia]. by injection Hrun as <-. }
  destruct args as [|a rest]; [by injection Hrun as <-|].
  simpl in Hlen. cbn [MainGo.parseArgs] in Hrun.
  destruct (String.eqb a "--"); [by injection Hrun as <-|].
  destruct (String.eqb a "--bind").
  { destruct rest as [|kv rest']; [done|]. unfold GoString.SplitN2 in Hrun.
    destruct (GoString.cut kv) as [[k v]|] eqn:Hcut; [|done].
    simpl in Hlen. revert Hrun. apply IH; [lia|]. simpl.
    by apply (Hins _ kv). }
  destruct (String.eqb a "--hold" || String.eqb a "-h").
  { revert Hrun. apply IH; [lia|done]. }
  destruct (String.eqb a "--input").
  { destruct rest as [|text rest']; [done|].
    simpl in Hlen. revert Hrun. apply IH; [lia|done]. }
  by injection Hrun as <-.
Qed.

(** X24: in the keymap that [parseFlag] returns no key contains a colon
    (the value of [--bind] is cut at its first colon, so a key literal with
    a colon in it, the colon key included, cannot be bound) and every spec
    is a result of [strings.TrimSpace]. *)
Theorem parseFlag_keys_have_no_colon
    (trim : string → string) (args : list string) (p : MainGo.ParsedFlag)
    (k v : string) :
  MainGo.parseFlag trim args = inl p → MainGo.Keymap p !! k = Some v →
  GoString.hasByte ":" k = false ∧ ∃ v0, v = trim v0.
Proof.
  unfold MainGo.parseFlag.
  destruct (MainGo.parseArgs trim args _) as [q|] eqn:Hrun; [|done].
  destruct (_ =? _)%nat; [done|]. intros [= <-].
  revert k v.
  apply (parseArgs_keymap_invariant trim
           (λ m, ∀ k v, m !! k = Some v →
                        GoString.hasByte ":" k = false ∧ ∃ v0, v = trim v0)
           ) with (n := length args) (args := args) (parsed :=
           {| MainGo.Cmd := []; MainGo.Keymap := ∅;
              MainGo.Hold := false; MainGo.Input := "" |}); [|done| |done].
  - intros m kv k0 v0 Hm Hcut k v Hlook.
    destruct (decide (k0 = k)) as [->|Hne].
    + rewrite lookup_insert_eq in Hlook. injection Hlook as <-.
      split; [|by exists v0]. by destruct (cut_some _ _ _ Hcut).
    + rewrite lookup_insert_ne in Hlook by done. by apply Hm.
  - intros k v Hlook. simpl in Hlook. by rewrite lookup_empty in Hlook.
Qed.

Lemma parseFlag_keys_have_no_colon_witness :
  GoString.hasByte ":" "" = false ∧ ∃ v0, ":exit" = id v0.
Proof.
  apply (parseFlag_keys_have_no_colon id ["--bind"; "::exit"; "cat"]
           {| MainGo.Cmd := ["cat"]; MainGo.Keymap := {[ "" := ":exit" ]};
              MainGo.Hold := false; MainGo.Input := "" |} "" ":exit").
  - vm_compute; reflexivity.
  - vm_compute; reflexivity.
Defined.

(** X25: a command line that [parseFlag] accepts has a command, so
    [startPty] never indexes an empty slice: it starts the first word of
    the command with the rest as arguments, or, when standard input was
    collected, [bash -c] with the file name as [$0] and the whole command
    after it. *)
Theorem accepted_command_starts
    (trim : string → string) (args : list string) (p : MainGo.ParsedFlag)
    (stdinFile : option string) :
  MainGo.parseFlag trim args = inl p →
  ∃ name argv,
    MainGo.startPtyCommand (MainGo.childCmd stdinFile (MainGo.Cmd p)) = Ok (name, argv)
    ∧ match stdinFile with
      | None => name :: argv = MainGo.Cmd p
      | Some file => name = "bash"
                     ∧ ∃ script, argv = "-c" :: script :: file :: MainGo.Cmd p
      end.
Proof.
  unfold MainGo.parseFlag.
  destruct (MainGo.parseArgs trim args _) as [q|]; [|done].
  destruct (MainGo.Cmd q) as [|c rest] eqn:Hcmd; [done|].
  intros [= <-]. rewrite Hcmd.
  destruct stdinFile as [file|]; simpl; eauto 6.
Qed.

Lemma accepted_command_starts_witness :
  ∃ name argv,
    MainGo.startPtyCommand
      (MainGo.childCmd (Some "/tmp/keywrap-stdin42")
         (MainGo.Cmd {| MainGo.Cmd := ["cat"]; MainGo.Keymap := ∅;
                        MainGo.Hold := true; MainGo.Input := "" |}))
    = Ok (name, argv)
    ∧ name = "bash"
    ∧ ∃ script, argv = "-c" :: script :: "/tmp/keywrap-stdin42"
                       :: MainGo.Cmd {| MainGo.Cmd := ["cat"]; MainGo.Keymap := ∅;
                                        MainGo.Hold := true; MainGo.Input := "" |}.
Proof.
  apply (accepted_command_starts id ["--hold"; "cat"]
           {| MainGo.Cmd := ["cat"]; MainGo.Keymap := ∅;
              MainGo.Hold := true; MainGo.Input := "" |}
           (Some "/tmp/keywrap-stdin42")).
  reflexivity.
Defined.

Lemma parseArgs_variants (trim : string → string) :
  ∀ n args pM pP qM,
    (length args ≤ n)%nat → sameOptions pM pP →
    MainGo.parseArgs trim args pM = inl qM →
    (MainGo.Cmd qM = MainGo.Cmd pM
     ∧ ∃ qP, Part000.parseArgs trim args pP = inl qP
             ∧ Part000.Cmd qP = Part000.Cmd pP ∧ sameOptions qM qP)
    ∨ (∃ c rest qP, MainGo.Cmd qM = c :: rest
                    ∧ Part000.parseArgs trim args pP = inl qP
                    ∧ Part000.Cmd qP = c ∧ Part000.Args qP = rest
                    ∧ sameOptions qM qP)
    ∨ MainGo.Cmd qM = [].
Proof.
  assert (∀ pM pP k h i,
            sameOptions pM pP →
            sameOptions
              {| MainGo.Cmd := MainGo.Cmd pM;
                 MainGo.Keymap := k (MainGo.Keymap pM);
                 MainGo.Hold := h (MainGo.Hold pM);
                 MainGo.Input := i (MainGo.Input pM) |}
              {| Part000.Cmd := Part000.Cmd pP; Part000.Args := Part000.Args pP;
                 Part000.Keymap := k (Part000.Keymap pP);
                 Part000.Hold := h (Part000.Hold pP);
                 Part000.Input := i (Part000.Input pP) |}) as Hstep.
  { intros pM pP k h i (Hk & Hh & Hi). repeat split; simpl; congruence. }
  induction n as [|n IH]; intros args pM pP qM Hlen Hsame Hrun.
  { destruct args; [|simpl in Hlen; lia]. injection Hrun as <-.
    left. split; [done|]. by exists pP. }
  destruct args as [|a rest].
  { injection Hrun as <-. left. split; [done|]. by exists pP. }
  simpl in Hlen.
  cbn [MainGo.parseArgs Part000.parseArgs] in *.
  destruct (String.eqb a "--").
  { injection Hrun as <-. destruct rest as [|c rest']; [by right; right|].
    right. left.
    exists c, rest', {| Part000.Cmd := c; Part000.Args := rest';
                        Part000.Keymap := Part000.Keymap pP;
                        Part000.Hold := Part000.Hold pP;
                        Part000.Input := Part000.Input pP |}.
    destruct Hsame as (Hk & Hh & Hi). repeat split; simpl; congruence. }
  destruct (String.eqb a "--bind").
  { destruct rest as [|kv rest']; [done|].
    destruct (GoString.SplitN2 kv) as [|k [|v [|? ?]]]; try done.
    simpl in Hlen.
    destruct (IH rest' _ _ qM ltac:(lia)
                (Hstep pM pP (λ m, <[k := trim v]> m) (λ h, h) (λ i, i) Hsame) Hrun)
      as [[Hc H]|[H|H]]; eauto. }
  destruct (String.eqb a "--hold" || String.eqb a "-h").
  { destruct (IH rest _ _ qM ltac:(lia)
                (Hstep pM pP (λ m, m) (λ _, true) (λ i, i) Hsame) Hrun)
      as [[Hc H]|[H|H]]; eauto. }
  destruct (String.eqb a "--input").
  { destruct rest as [|text rest']; [done|]. simpl in Hlen.
    destruct (IH rest' _ _ qM ltac:(lia)
                (Hstep pM pP (λ m, m) (λ h, h) (λ _, text) Hsame) Hrun)
      as [[Hc H]|[H|H]]; eauto. }
  injection Hrun as <-. right. left.
  exists a, rest, {| Part000.Cmd := a; Part000.Args := rest;
                     Part000.Keymap := Part000.Keymap pP;
                     Part000.Hold := Part000.Hold pP;
                     Part000.Input := Part000.Input pP |}.
  destruct Hsame as (Hk & Hh & Hi). repeat split; simpl; congruence.
Qed.

Lemma parseArgs_variants_back (trim : string → string) :
  ∀ n args pM pP qP,
    (length args ≤ n)%nat → sameOptions pM pP →
    Part000.parseArgs trim args pP = inl qP →
    ∃ qM, MainGo.parseArgs trim args pM = inl qM ∧ sameOptions qM qP
          ∧ ((Part000.Cmd qP = Part000.Cmd pP ∧ MainGo.Cmd qM = MainGo.Cmd pM)
             ∨ MainGo.Cmd qM = Part000.Cmd qP :: Part000.Args qP).
Proof.
  assert (∀ pM pP k h i,
            sameOptions pM pP →
            sameOptions
              {| MainGo.Cmd := MainGo.Cmd pM;
                 MainGo.Keymap := k (MainGo.Keymap pM);
                 MainGo.Hold := h (MainGo.Hold pM);
                 MainGo.Input := i (MainGo.Input pM) |}
              {| Part000.Cmd := Part000.Cmd pP; Part000.Args := Part000.Args pP;
                 Part000.Keymap := k (Part000.Keymap pP);
                 Part000.Hold := h (Part000.Hold pP);
                 Part000.Input := i (Part000.Input pP) |}) as Hstep.
  { intros pM pP k h i (Hk & Hh & Hi). repeat split; simpl; congruence. }
  induction n as [|n IH]; intros args pM pP qP Hlen Hsame Hrun.
  { destruct args; [|simpl in Hlen; lia]. injection Hrun as <-.
    exists pM. split; [done|]. split; [done|by left]. }
  destruct args as [|a rest].
  { injection Hrun as <-. exists pM. split; [done|]. split; [done|by left]. }
  simpl in Hlen.
  cbn [MainGo.parseArgs Part000.parseArgs] in *.
  destruct (String.eqb a "--").
  { destruct rest as [|c rest']; [done|]. injection Hrun as <-.
    eexists. split; [reflexivity|].
    destruct Hsame as (Hk & Hh & Hi).
    split; [repeat split; simpl; congruence|by right]. }
  destruct (String.eqb a "--bind").
  { destruct rest as [|kv rest']; [done|].
    destruct (GoString.SplitN2 kv) as [|k [|v [|? ?]]]; try done.
    simpl in Hlen.
    destruct (IH rest' _ _ qP ltac:(lia)
                (Hstep pM pP (λ m, <[k := trim v]> m) (λ h, h) (λ i, i) Hsame) Hrun)
      as (qM & HM & Hs & H). by exists qM. }
  destruct (String.eqb a "--hold" || String.eqb a "-h").
  { destruct (IH rest _ _ qP ltac:(lia)
                (Hstep pM pP (λ m, m) (λ _, true) (λ i, i) Hsame) Hrun)
      as (qM & HM & Hs & H). by exists qM. }
  destruct (String.eqb a "--input").
  { destruct rest as [|text rest']; [done|]. simpl in Hlen.
    destruct (IH rest' _ _ qP ltac:(lia)
                (Hstep pM pP (λ m, m) (λ h, h) (λ _, text) Hsame) Hrun)
      as (qM & HM & Hs & H). by exists qM. }
  injection Hrun as <-. eexists. split; [reflexivity|].
  destruct Hsame as (Hk & Hh & Hi).
  split; [repeat split; simpl; congruence|by right].
Qed.

(** X26: the two variants of [parseFlag] accept the same command lines
    with the same result, the second splitting the command into its first
    word and its arguments, with one exception: a command whose first word
    is the empty string is accepted by main.go and makes the second variant
    print the usage and exit with status 1.  What main.go accepts the
    second variant accepts with the corresponding result, that exception
    apart; and what the second variant accepts main.go accepts, its command
    being the first word followed by the arguments. *)
Theorem parseFlag_variants_agree (trim : string → string) (args : list string) :
  (∀ p, MainGo.parseFlag trim args = inl p →
     ∃ c rest,
       MainGo.Cmd p = c :: rest
       ∧ Part000.parseFlag trim args
         = if String.eqb c ""
           then inr (OsExit 1)
           else inl {| Part000.Cmd := c; Part000.Args := rest;
                       Part000.Keymap := MainGo.Keymap p;
                       Part000.Hold := MainGo.Hold p;
                       Part000.Input := MainGo.Input p |})
  ∧ (∀ q, Part000.parseFlag trim args = inl q →
       MainGo.parseFlag trim args
       = inl {| MainGo.Cmd := Part000.Cmd q :: Part000.Args q;
                MainGo.Keymap := Part000.Keymap q;
                MainGo.Hold := Part000.Hold q;
                MainGo.Input := Part000.Input q |}).
Proof.
  assert (sameOptions
            {| MainGo.Cmd := []; MainGo.Keymap := ∅;
               MainGo.Hold := false; MainGo.Input := "" |}
            {| Part000.Cmd := ""; Part000.Args := []; Part000.Keymap := ∅;
               Part000.Hold := false; Part000.Input := "" |}) as Hinit
    by (by repeat split).
  split.
  - intros p. unfold MainGo.parseFlag, Part000.parseFlag.
    destruct (MainGo.parseArgs trim args _) as [qM|] eqn:Hrun; [|done].
    destruct (MainGo.Cmd qM) as [|c rest] eqn:Hcmd; [done|].
    intros [= <-]. exists c, rest. split; [done|].
    destruct (parseArgs_variants trim (length args) args _ _ qM
                (le_n _) Hinit Hrun)
      as [[Hc _]|[(c' & rest' & qP & Hc & HP & Hc' & Ha' & Hk & Hh & Hi)|Hc]].
    + rewrite Hcmd in Hc. done.
    + rewrite Hcmd in Hc. injection Hc as -> ->. rewrite HP, Hc'.
      destruct (String.eqb c' ""); [done|].
      f_equal. destruct qP. simpl in *. by subst.
    + rewrite Hcmd in Hc. done.
  - intros q. unfold MainGo.parseFlag, Part000.parseFlag.
    destruct (Part000.parseArgs trim args _) as [qP|] eqn:Hrun; [|done].
    destruct (String.eqb (Part000.Cmd qP) "") eqn:Hcmd; [done|].
    intros [= <-].
    destruct (parseArgs_variants_back trim (length args) args _ _ qP
                (le_n _) Hinit Hrun)
      as (qM & HM & (Hk & Hh & Hi) & [[Hc _]|Hc]).
    + simpl in Hc. rewrite Hc in Hcmd. done.
    + rewrite HM, Hc. simpl. f_equal.
      destruct qM. simpl in *. by subst.
Qed.

Lemma parseFlag_variants_agree_witness :
  (∃ c rest,
     MainGo.Cmd {| MainGo.Cmd := ["bat"; "a.json"]; MainGo.Keymap := {[ "q" := "exit" ]};
                   MainGo.Hold := true; MainGo.Input := "" |} = c :: rest
     ∧ Part000.parseFlag id ["--bind"; "q:exit"; "-h"; "--"; "bat"; "a.json"]
       = if String.eqb c ""
         then inr (OsExit 1)
         else inl {| Part000.Cmd := c; Part000.Args := rest;
                     Part000.Keymap := {[ "q" := "exit" ]};
                     Part000.Hold := true; Part000.Input := "" |})
  ∧ MainGo.parseFlag id ["--bind"; "q:exit"; "-h"; "--"; "bat"; "a.json"]
    = inl {| MainGo.Cmd := ["bat"; "a.json"]; MainGo.Keymap := {[ "q" := "exit" ]};
             MainGo.Hold := true; MainGo.Input := "" |}.
Proof.
  destruct (parseFlag_variants_agree id
              ["--bind"; "q:exit"; "-h"; "--"; "bat"; "a.json"]) as [Hfwd Hback].
  split.
  - refine (Hfwd {| MainGo.Cmd := ["bat"; "a.json"];
                    MainGo.Keymap := {[ "q" := "exit" ]};
                    MainGo.Hold := true; MainGo.Input := "" |} _).
    vm_compute; reflexivity.
  - refine (Hback {| Part000.Cmd := "bat"; Part000.Args := ["a.json"];
                     Part000.Keymap := {[ "q" := "exit" ]};
                     Part000.Hold := true; Part000.Input := "" |} _).
    vm_compute; reflexivity.
Defined.

(** ** The grammar of key literals *)

Lemma substring_full (t : string) : String.substring 0 (String.length t) t = t.
Proof. induction t as [|c t IH]; simpl; [done|]. by rewrite IH. Qed.

Lemma ctrl_guard_iff (k : string) :
  GoString.HasPrefix k "ctrl-" && (GoString.len (GoString.drop 5 k) =? 1) = true
  ↔ ∃ c, k = "ctrl-" +:+ String c EmptyString.
Proof.
  split.
  - intros H. apply andb_true_iff in H as [Hp Hl].
    destruct (prefix_split _ _ Hp) as [t ->].
    unfold GoString.drop, GoString.len in Hl.
    rewrite length_append in Hl.
    replace (String.length "ctrl-" + String.length t - 5)%nat
      with (String.length t) in Hl by (simpl; lia).
    rewrite (substring_skip_prefix "ctrl-" t), substring_full in Hl.
    apply Z.eqb_eq in Hl.
    destruct t as [|c [|c' t]]; simpl in Hl; [lia| |lia]. by exists c.
  - intros [c ->]. unfold GoString.HasPrefix. by rewrite prefix_append.
Qed.

(** X27: the key literals that [formatKeymap] accepts are exactly the
    strings of one byte, [ctrl-] followed by one byte, [enter] and [tab];
    every other literal (a character of several bytes, [esc], [space],
    [Enter], [ctrl-] alone or followed by two bytes, the empty string)
    panics with [unknown key: ] and the literal. *)
Theorem key_literal_grammar (k : string) (a : Action) (m : gmap string Action) :
  ((∃ m', MainGo.registerKey k a m = Ok m')
   ↔ (String.length k = 1%nat ∨ (∃ c, k = "ctrl-" +:+ String c EmptyString)
      ∨ k = "enter" ∨ k = "tab"))
  ∧ ((∃ m', MainGo.registerKey k a m = Ok m')
     ∨ MainGo.registerKey k a m = Panics (unknownKey k)).
Proof.
  assert (is_Some (keySequences k)
          ↔ (String.length k = 1%nat ∨ (∃ c, k = "ctrl-" +:+ String c EmptyString)
             ∨ k = "enter" ∨ k = "tab")) as Hgrammar.
  { unfold keySequences.
    destruct (GoString.len k =? 1) eqn:Hlen.
    { apply Z.eqb_eq in Hlen. unfold GoString.len in Hlen.
      split; [intros _; left; lia|eauto]. }
    apply Z.eqb_neq in Hlen. unfold GoString.len in Hlen.
    destruct (_ && _) eqn:Hctrl.
    { destruct (ctrl_guard_index k Hctrl) as [code ->].
      apply ctrl_guard_iff in Hctrl. split; eauto. }
    assert (¬ ∃ c, k = "ctrl-" +:+ String c EmptyString) as Hnot.
    { intros H. apply ctrl_guard_iff in H. congruence. }
    destruct (String.eqb_spec k "enter") as [->|Hne]; [split; eauto|].
    destruct (String.eqb_spec k "tab") as [->|Hnt]; [split; eauto|].
    split; [by intros [? ?]|].
    intros [H|[H|[H|H]]]; [lia|done|done|done]. }
  split.
  - rewrite <- Hgrammar. split.
    + intros [m' Hm']. destruct (keySequences k) eqn:Hk; [eauto|].
      by rewrite (registerKey_unknown k a m Hk) in Hm'.
    + intros [seqs Hk]. rewrite (registerKey_sequences k a m seqs Hk). eauto.
  - destruct (keySequences k) as [seqs|] eqn:Hk.
    + left. rewrite (registerKey_sequences k a m seqs Hk). eauto.
    + right. by apply registerKey_unknown.
Qed.

(** ** Hold mode, end to end *)


